(** * Shallow embedding of [src/loader.py]

    The CoNLL-2012 loader of the coreference-resolution project: token
    normalisation ([clean_token]), the vocabulary index of [LazyVectors]
    ([set_dicts], [stoi], [itos]), [Document.truncate] and the annotation
    parser [load_file].

    Python integers are [Z] where a negative value can reach the code and
    [nat] where the code only counts up from zero; [str] is [string], so
    white space and digits are the ASCII ones; a [dict] is the list of its
    items in insertion order; exceptions are the [Raise] side of the
    [result] type.  The file read by [load_file] is the list of its
    lines, and [random.sample] draws from an explicit seed. *)

From Stdlib Require Import Ascii String ZArith Lia.
From stdpp Require Import strings list gmap.

Open Scope string_scope.
Open Scope list_scope.
Open Scope nat_scope.

(** ** Exceptions *)

(** The exceptions the embedded code can raise. *)
Inductive exn : Type :=
  | IndexError          (* list index out of range *)
  | AttributeError      (* [match.group] on [None] *)
  | UnboundLocalError.  (* local variable read before assignment *)

Inductive result (A : Type) : Type :=
  | Ok (a : A)
  | Raise (e : exn).
Arguments Ok {A} a.
Arguments Raise {A} e.

Definition bind {A B : Type} (r : result A) (k : A → result B) : result B :=
  match r with
  | Ok a => k a
  | Raise e => Raise e
  end.

Notation "x ←! r ; k" := (bind r (λ x, k))
  (at level 100, r at next level, right associativity).

(** ** String helpers: the [str] methods the loader calls *)

Module Str.

(** [s in l] for a list of strings. *)
Definition mem (s : string) (l : list string) : bool :=
  bool_decide (s ∈ l).

(** [s.startswith(p)]. *)
Fixpoint startswith (p s : string) : bool :=
  match p, s with
  | EmptyString, _ => true
  | String a p', String b s' => if decide (a = b) then startswith p' s' else false
  | String _ _, EmptyString => false
  end.

(** [s.replace(old, new)] for a non-empty [old]: left to right, without
    overlap.  [skip] counts the characters of a matched [old] that are
    still to be dropped. *)
Fixpoint replace_from (old new : string) (skip : nat) (s : string) : string :=
  match s with
  | EmptyString => EmptyString
  | String c s' =>
      match skip with
      | S k => replace_from old new k s'
      | O =>
          if startswith old s
          then (new ++ replace_from old new (String.length old - 1) s')%string
          else String c (replace_from old new 0 s')
      end
  end.

Definition replace (old new s : string) : string := replace_from old new 0 s.

(** [s.split(sep)] for a one-character separator: every occurrence
    splits, empty fields are kept. *)
Fixpoint split (sep : ascii) (s : string) : list string :=
  match s with
  | EmptyString => [EmptyString]
  | String c s' =>
      if decide (c = sep) then EmptyString :: split sep s'
      else match split sep s' with
           | [] => [String c EmptyString]
           | w :: ws => String c w :: ws
           end
  end.

(** The white space of [str.split()] without argument, among the ASCII
    characters.  Python also splits at white space beyond ASCII (U+0085,
    U+00A0, U+2000 and others); [split_ws] stands for [str.split()] on
    lines of ASCII characters. *)
Definition is_space (c : ascii) : bool :=
  let n := nat_of_ascii c in
  bool_decide (n = 32 ∨ (9 ≤ n ∧ n ≤ 13) ∨ (28 ≤ n ∧ n ≤ 31))%nat.

(** [s.split()]: runs of white space separate, no empty fields.  [cur]
    is the field being read, reversed. *)
Fixpoint split_ws_from (cur : list ascii) (s : string) : list string :=
  match s with
  | EmptyString =>
      match cur with
      | [] => []
      | _ => [string_of_list_ascii (rev cur)]
      end
  | String c s' =>
      if is_space c
      then match cur with
           | [] => split_ws_from [] s'
           | _ => string_of_list_ascii (rev cur) :: split_ws_from [] s'
           end
      else split_ws_from (c :: cur) s'
  end.

Definition split_ws (s : string) : list string := split_ws_from [] s.

(** The digits 0 to 9: what [\d] matches among the ASCII characters.
    In a [str] pattern [\d] also matches the decimal digits of other
    scripts. *)
Definition is_digit (c : ascii) : bool :=
  let n := nat_of_ascii c in
  bool_decide (48 ≤ n ∧ n ≤ 57)%nat.

End Str.

(** ** Python dictionaries

    A [dict] keeps its keys in insertion order and [items()] walks them
    in that order, so a dictionary is the list of its items, keys
    distinct. *)

Section dict.
Context {K V : Type} `{EqDecision K}.

(** [d.get(k)]. *)
Fixpoint dict_get (d : list (K * V)) (k : K) : option V :=
  match d with
  | [] => None
  | (k', v) :: d' => if decide (k = k') then Some v else dict_get d' k
  end.

(** [d[k] = v]: a present key keeps its place, a new one goes last. *)
Fixpoint dict_set (d : list (K * V)) (k : K) (v : V) : list (K * V) :=
  match d with
  | [] => [(k, v)]
  | (k', v') :: d' =>
      if decide (k = k') then (k, v) :: d' else (k', v') :: dict_set d' k v
  end.
End dict.

(** [enumerate(l)], counting from [n]. *)
Fixpoint enumerate_from {A : Type} (n : Z) (l : list A) : list (Z * A) :=
  match l with
  | [] => []
  | x :: l' => (n, x) :: enumerate_from (n + 1) l'
  end.

Definition enumerate {A : Type} (l : list A) : list (Z * A) := enumerate_from 0 l.

(** [l[i]] for a Python integer [i]: a negative index counts from the
    end, anything outside the list raises [IndexError]. *)
Definition py_index {A : Type} (l : list A) (i : Z) : result A :=
  let j := if decide (i < 0)%Z then (i + Z.of_nat (length l))%Z else i in
  if decide (j < 0)%Z then Raise IndexError
  else match l !! Z.to_nat j with
       | Some x => Ok x
       | None => Raise IndexError
       end.

(** [l[a:b]] for indices [a], [b] that are not negative. *)
Definition py_slice {A : Type} (l : list A) (a b : nat) : list A :=
  take (b - a) (drop a l).

(** ** Token normalisation *)

(** [NORMALIZE_DICT], in the order of the source. *)
Definition NORMALIZE_DICT : list (string * string) :=
  [("/.", "."); ("/?", "?");
   ("-LRB-", "("); ("-RRB-", ")");
   ("-LCB-", "{"); ("-RCB-", "}");
   ("-LSB-", "["); ("-RSB-", "]")].

Definition REMOVED_CHAR : list string := ["/"; "%"; "*"].

Definition clean_token (token : string) : string :=
  let cleaned_token := token in
  let cleaned_token :=
    match dict_get NORMALIZE_DICT cleaned_token with
    | Some v => v
    | None => cleaned_token
    end in
  let cleaned_token :=
    if negb (Str.mem cleaned_token REMOVED_CHAR)
    then foldl (λ acc char, Str.replace char "" acc) cleaned_token REMOVED_CHAR
    else cleaned_token in
  if decide (String.length cleaned_token = 0%nat) then "," else cleaned_token.


(** ** [LazyVectors]: the vocabulary index *)

Module LazyVectors.

(** The attributes of a table the lookups read: the working vocabulary
    and the two dictionaries [set_dicts] derives from it. *)
Record t : Type := mk {
  vocab : list string;
  _stoi : list (string * Z);
  _itos : list (Z * string)
}.

Definition unk_idx : Z := 1.

(** [l[:skim]], with [skim = None] keeping everything. *)
Definition take_skim {A : Type} (skim : option Z) (l : list A) : list A :=
  match skim with
  | None => l
  | Some k =>
      if decide (k < 0)%Z then take (Z.to_nat (Z.of_nat (length l) + k)) l
      else take (Z.to_nat k) l
  end.

(** [{s: i for i, s in enumerate(vocab)}]. *)
Definition build_stoi (vocab : list string) : list (string * Z) :=
  foldl (λ d '(i, s), dict_set d s i) [] (enumerate vocab).

(** [{i: s for s, i in _stoi.items()}]. *)
Definition build_itos (stoi : list (string * Z)) : list (Z * string) :=
  foldl (λ d '(s, i), dict_set d i s) [] stoi.

Definition set_dicts (vocab : list string) : t :=
  let stoi := build_stoi vocab in
  {| vocab := vocab; _stoi := stoi; _itos := build_itos stoi |}.

(** [set_vocab]: [in_loader v] is [v in self.loader.stoi], membership in
    the pretrained vectors' own vocabulary. *)
Definition set_vocab (in_loader : string → bool) (skim : option Z)
    (vocab : list string) : t :=
  set_dicts (take_skim skim (filter (λ v, in_loader v = true) vocab)).

(** Truthiness of [dict.get]'s result for an integer value: [None] and
    [0] are false. *)
Definition truthy_int (idx : option Z) : bool :=
  match idx with
  | None => false
  | Some n => negb (n =? 0)%Z
  end.

(** Truthiness for a string value: [None] and [''] are false. *)
Definition truthy_str (token : option string) : bool :=
  match token with
  | None => false
  | Some s => negb (String.eqb s "")
  end.

Definition stoi (self : t) (s : string) : Z :=
  let idx := dict_get (_stoi self) s in
  if truthy_int idx then (default 0%Z idx + 2)%Z else unk_idx.

Definition itos (self : t) (i : Z) : string :=
  let token := dict_get (_itos self) i in
  if truthy_str token then default "" token else "UNK".

(** [__init__]: the vocabulary is set when one is given; without one the
    table has no dictionaries yet. *)
Definition init (in_loader : string → bool) (skim : option Z)
    (vocab : option (list string)) : option t :=
  match vocab with
  | Some vocab => Some (set_vocab in_loader skim vocab)
  | None => None
  end.

(** [from_corpus]: [corpus_vocabulary] is the corpus's set of tokens in
    the order its iteration yields them. *)
Definition from_corpus (in_loader : string → bool)
    (corpus_vocabulary : list string) : option t :=
  init in_loader None (Some corpus_vocabulary).

End LazyVectors.

(** ** [Document] *)

(** A coreference record, the dictionary with keys ['label'], ['start'],
    ['end'] and ['span']. *)
Record Coref : Type := mkCoref {
  label : string;
  start : nat;
  end_ : option nat;
  span : option (list nat)
}.

Record Document : Type := mkDocument {
  tokens : list string;
  corefs : list Coref;
  speakers : list string;
  genre : string
}.

(** What [truncate] hands back: [self], or a newly built document. *)
Inductive truncated : Type :=
  | Self
  | New (d : Document).

(** [random.sample(range(lo, hi), 1)[0]] for [lo < hi]: [seed] is the
    generator's draw; every element of the range is the draw of some
    seed. *)
Definition random_sample_range (lo hi : Z) (seed : nat) : Z :=
  (lo + Z.of_nat seed mod (hi - lo))%Z.

(** [[idx for idx, token in enumerate(self.tokens) if token in ['.', '?', '!']]] *)
Definition sentence_ends (toks : list string) : list nat :=
  (λ p, Z.to_nat p.1) <$>
    filter (λ p, Str.mem p.2 ["."; "?"; "!"] = true) (enumerate toks).

Definition truncate (self : Document) (MAX : Z) (seed : nat) : result truncated :=
  let sentences := sentence_ends (tokens self) in
  let n := Z.of_nat (length sentences) in
  if decide (MAX < n)%Z then
    let i := random_sample_range MAX n seed in
    a ←! py_index sentences (i - 50);
    b ←! py_index sentences i;
    Ok (New {| tokens := py_slice (tokens self) a b;
               corefs := corefs self;
               speakers := speakers self;
               genre := genre self |})
  else Ok Self.

(** ** The coreference column *)

(** The longest prefix of decimal digits, and what follows it. *)
Fixpoint span_digits (s : string) : string * string :=
  match s with
  | EmptyString => (EmptyString, EmptyString)
  | String c s' =>
      if Str.is_digit c
      then let '(d, r) := span_digits s' in (String c d, r)
      else (EmptyString, s)
  end.

Definition newline : string := String (ascii_of_nat 10) EmptyString.

(** [re.match(r"^(\(?)(\d+)(\)?)$", token)]: the three groups, or [None].
    Each of the three parts matches in one way only, so there is nothing
    to backtrack over; [$] also matches before a final newline.  With
    [Str.is_digit] for [\d] this is [re.match] on tokens of ASCII
    characters ([ascii_only]); a label written in digits of another
    script is matched by the source and not here. *)
Definition re_match_coref (token : string) : option (string * string * string) :=
  let '(g1, s1) :=
    match token with
    | String "(" s' => ("(", s')
    | _ => ("", token)
    end in
  let '(g2, s2) := span_digits s1 in
  if decide (g2 = "") then None
  else
    let '(g3, s3) :=
      match s2 with
      | String ")" s' => (")", s')
      | _ => ("", s2)
      end in
    if decide (s3 = "" ∨ s3 = newline) then Some (g1, g2, g3) else None.

(** [{'label': label, 'start': index, 'end': None, 'span': None}] *)
Definition open_mention (label : string) (index : nat) : Coref :=
  {| label := label; start := index; end_ := None; span := None |}.

(** [m['end'] = index] *)
Definition set_end (index : nat) (m : Coref) : Coref :=
  {| label := label m; start := start m; end_ := Some index; span := span m |}.

(** [m['label'] == label and m['end'] is None] *)
Definition pending (lbl : string) (m : Coref) : bool :=
  bool_decide (label m = lbl) && bool_decide (end_ m = None).

(** The scan [for i in range(len(corefs)-1, -1, -1): if ...: break] over
    the indices [idxs] still to visit.  The result is the loop variable
    [i] after the loop: the index of the [break], else the last index
    visited, else what [i] was before. *)
Fixpoint scan (corefs : list Coref) (lbl : string) (idxs : list nat)
    (i : option nat) : option nat :=
  match idxs with
  | [] => i
  | k :: idxs' =>
      match corefs !! k with
      | Some m => if pending lbl m then Some k else scan corefs lbl idxs' (Some k)
      | None => scan corefs lbl idxs' (Some k)
      end
  end.

(** [range(len(corefs)-1, -1, -1)] *)
Definition range_down (n : nat) : list nat := rev (seq 0 n).

(** Lines 245-248: the scan, then [corefs[i]['end'] = index].  [i] is a
    local of [load_file], so it keeps the value an earlier scan left;
    [None] is the variable not yet bound. *)
Definition close_marker (corefs : list Coref) (lbl : string) (index : nat)
    (i : option nat) : result (list Coref * option nat) :=
  let i := scan corefs lbl (range_down (length corefs)) i in
  match i with
  | None => Raise UnboundLocalError
  | Some k =>
      match corefs !! k with
      | Some m => Ok (<[k := set_end index m]> corefs, i)
      | None => Raise IndexError
      end
  end.

(** The body of [for token in coref_expr]. *)
Definition coref_token (index : nat) (acc : list Coref * option nat)
    (token : string) : result (list Coref * option nat) :=
  let '(corefs, i) := acc in
  match re_match_coref token with
  | None => Raise AttributeError  (* [match.group(2)] on [None] *)
  | Some (g1, lbl, g3) =>
      let corefs :=
        if decide (g1 = "(") then corefs ++ [open_mention lbl index] else corefs in
      if decide (g3 = ")") then close_marker corefs lbl index i
      else Ok (corefs, i)
  end.

Fixpoint coref_tokens (index : nat) (acc : list Coref * option nat)
    (coref_expr : list string) : result (list Coref * option nat) :=
  match coref_expr with
  | [] => Ok acc
  | token :: rest =>
      acc' ←! coref_token index acc token;
      coref_tokens index acc' rest
  end.

(** ** [load_file] *)

(** The local variables of [load_file] that live across lines.  The
    prefix [v_] keeps them apart from the fields of [Document].
    [v_speaker] and [v_i] are [None] until their first assignment. *)
Record locals : Type := mkLocals {
  v_documents : list Document;
  v_tokens : list string;
  v_text : list string;
  v_utts_corefs : list Coref;
  v_utts_speakers : list string;
  v_corefs : list Coref;
  v_index : nat;
  v_speaker : option string;
  v_i : option nat
}.

Definition init_locals : locals :=
  {| v_documents := []; v_tokens := []; v_text := []; v_utts_corefs := [];
     v_utts_speakers := []; v_corefs := []; v_index := 0;
     v_speaker := None; v_i := None |}.

(** [cols[-1]] of a list that is not empty. *)
Definition last_col (cols : list string) : string := default "" (last cols).

Section load_file.

(** [fix_coref_spans] comes from [utils], which is not part of the
    sources at hand; the loader is parametric in it. *)
Variable fix_coref_spans : Document → Document.

Variable genre_of_file : string.

(** End of utterance: the branch [len(cols) == 0]. *)
Definition end_utterance (st : locals) : result locals :=
  match v_text st with
  | [] => Ok st
  | _ :: _ =>
      match v_speaker st with
      | None => Raise UnboundLocalError
      | Some speaker =>
          Ok {| v_documents := v_documents st;
                v_tokens := v_tokens st ++ v_text st;
                v_text := [];
                v_utts_corefs := v_utts_corefs st ++ v_corefs st;
                v_utts_speakers :=
                  v_utts_speakers st ++ replicate (length (v_text st)) speaker;
                v_corefs := [];
                v_index := v_index st;
                v_speaker := v_speaker st;
                v_i := v_i st |}
      end
  end.

(** End of document: the branch [len(cols) == 2].  The assignment that
    resets the accumulators names [tokens], [text], [utts_corefs],
    [utts_speakers] and [index]; [corefs] is not among them. *)
Definition end_document (st : locals) : result locals :=
  let doc :=
    fix_coref_spans
      (mkDocument (v_tokens st) (v_utts_corefs st) (v_utts_speakers st)
         genre_of_file) in
  Ok {| v_documents := v_documents st ++ [doc];
        v_tokens := [];
        v_text := [];
        v_utts_corefs := [];
        v_utts_speakers := [];
        v_corefs := v_corefs st;
        v_index := 0;
        v_speaker := v_speaker st;
        v_i := v_i st |}.

(** Inside an utterance: the branch [len(cols) > 7]. *)
Definition token_record (st : locals) (cols : list string) : result locals :=
  tok ←! py_index cols 3;
  let text := v_text st ++ [clean_token tok] in
  speaker ←! py_index cols 9;
  acc ←!
    (if decide (last_col cols ≠ "-")
     then coref_tokens (v_index st) (v_corefs st, v_i st)
            (Str.split "|" (last_col cols))
     else Ok (v_corefs st, v_i st));
  Ok {| v_documents := v_documents st;
        v_tokens := v_tokens st;
        v_text := text;
        v_utts_corefs := v_utts_corefs st;
        v_utts_speakers := v_utts_speakers st;
        v_corefs := acc.1;
        v_index := v_index st + 1;
        v_speaker := Some speaker;
        v_i := acc.2 |}.

(** One turn of [for line in f], on [cols = line.split()]. *)
Definition step (st : locals) (cols : list string) : result locals :=
  if decide (length cols = 0) then end_utterance st
  else if decide (length cols = 2) then end_document st
  else if decide (7 < length cols) then token_record st cols
  else Ok st.

Fixpoint run (st : locals) (lines : list (list string)) : result locals :=
  match lines with
  | [] => Ok st
  | cols :: rest => st' ←! step st cols; run st' rest
  end.

(** The loop over the lines, each already split into its columns. *)
Definition load_cols (lines : list (list string)) : result (list Document) :=
  st ←! run init_locals lines;
  Ok (v_documents st).

End load_file.

(** [load_file(filename)], on the lines read from the file. *)
Definition load_file (fix_coref_spans : Document → Document)
    (filename : string) (lines : list string) : result (list Document) :=
  genre ←! py_index (Str.split "/" filename) 6;
  load_cols fix_coref_spans genre (Str.split_ws <$> lines).

(** ** Properties of inputs and outputs the statements below speak about *)

(** A token made of the characters ['/'], ['%'] and ['*'] only. *)
Definition only_removed_chars (token : string) : Prop :=
  Forall (λ c, String c EmptyString ∈ REMOVED_CHAR) (list_ascii_of_string token).

(** The first occurrence of [x] taken out of [l]; [None] if there is none. *)
Fixpoint remove_one (x : string) (l : list string) : option (list string) :=
  match l with
  | [] => None
  | y :: l' =>
      if decide (x = y) then Some l'
      else match remove_one x l' with
           | Some r => Some (y :: r)
           | None => None
           end
  end.

(** Well-formed annotation.  [opened] holds the labels opened and not yet
    closed in the utterance being read, the latest first.  A label token
    must follow the grammar of the coreference column, and a close marker
    needs an open one of its label. *)
Definition wf_coref_token (opened : list string) (token : string)
    : option (list string) :=
  match re_match_coref token with
  | None => None
  | Some (g1, lbl, g3) =>
      let opened := if decide (g1 = "(") then lbl :: opened else opened in
      if decide (g3 = ")") then remove_one lbl opened else Some opened
  end.

Fixpoint wf_coref_tokens (opened : list string) (coref_expr : list string)
    : option (list string) :=
  match coref_expr with
  | [] => Some opened
  | token :: rest =>
      match wf_coref_token opened token with
      | Some opened' => wf_coref_tokens opened' rest
      | None => None
      end
  end.

(** A token record carries the speaker in column 9, so it has at least
    ten columns; no mention stays open across the end of an utterance or
    of a document. *)
Definition wf_line (opened : list string) (cols : list string)
    : option (list string) :=
  if decide (length cols = 0) then
    if decide (opened = []) then Some [] else None
  else if decide (length cols = 2) then
    if decide (opened = []) then Some [] else None
  else if decide (7 < length cols) then
    if decide (10 ≤ length cols) then
      if decide (last_col cols ≠ "-")
      then wf_coref_tokens opened (Str.split "|" (last_col cols))
      else Some opened
    else None
  else Some opened.

Fixpoint wf_lines (opened : list string) (lines : list (list string)) : bool :=
  match lines with
  | [] => true
  | cols :: rest =>
      match wf_line opened cols with
      | Some opened' => wf_lines opened' rest
      | None => false
      end
  end.

Definition well_formed (lines : list (list string)) : bool := wf_lines [] lines.

(** A mention is resolved, and ends no earlier than it starts. *)
Definition mention_ok (m : Coref) : Prop :=
  ∃ e, end_ m = Some e ∧ start m ≤ e.

Definition document_ok (d : Document) : Prop :=
  length (tokens d) = length (speakers d) ∧ Forall mention_ok (corefs d).

(** What is asked of the absent [fix_coref_spans]: it fills in spans and
    leaves tokens, speakers and each mention's label, start and end as
    they are. *)
Definition fills_spans_only (fix_coref_spans : Document → Document) : Prop :=
  ∀ d,
    tokens (fix_coref_spans d) = tokens d ∧
    speakers (fix_coref_spans d) = speakers d ∧
    Forall2 (λ m' m, label m' = label m ∧ start m' = start m ∧ end_ m' = end_ m)
      (corefs (fix_coref_spans d)) (corefs d).

(** A stand-in that behaves so: the span of a resolved mention becomes
    the list of its token indices. *)
Definition fill_spans (d : Document) : Document :=
  {| tokens := tokens d;
     corefs :=
       (λ m, {| label := label m; start := start m; end_ := end_ m;
                span := match end_ m with
                        | Some e => Some (seq (start m) (e + 1 - start m))
                        | None => span m
                        end |}) <$> corefs d;
     speakers := speakers d;
     genre := genre d |}.

(** A token record with the given word, speaker and coreference column;
    the other columns hold what a CoNLL-2012 line holds there. *)
Definition record (word speaker coref : string) : list string :=
  ["bc/cctv/00/cctv_0000"; "0"; "0"; word; "NN"; "*"; "-"; "-"; "-";
   speaker; "*"; coref].

Definition end_document_line : list string := ["#end"; "document"].

(** The unresolved mentions of a list, as the labels a reader of the
    column has open: the latest first. *)
Definition opened_of (corefs : list Coref) : list string :=
  rev (label <$> filter (λ m, end_ m = None) corefs).

(** Fifty-one two-token sentences. *)
Definition fifty_one_sentences : Document :=
  {| tokens := mjoin (replicate 51 ["w"; "."]);
     corefs := []; speakers := replicate 102 "s"; genre := "bc" |}.

(** A mention in the utterance buffer while the token counter stands at
    [index]: resolved with its end no earlier than its start, or open
    with its start no later than [index]. *)
Definition mention_bounded (index : nat) (m : Coref) : Prop :=
  match end_ m with
  | Some e => start m ≤ e
  | None => start m ≤ index
  end.

(** What holds of the locals of [load_file] between two lines of a
    well-formed file, [opened] being the labels its reader has open. *)
Definition locals_ok (opened : list string) (st : locals) : Prop :=
  opened_of (v_corefs st) = opened ∧
  Forall mention_ok (v_utts_corefs st) ∧
  Forall (mention_bounded (v_index st)) (v_corefs st) ∧
  length (v_tokens st) = length (v_utts_speakers st) ∧
  (v_text st ≠ [] → is_Some (v_speaker st)) ∧
  Forall document_ok (v_documents st).

(** The normalised word of a token record. *)
Definition word_of (cols : list string) : string :=
  clean_token (default "" (cols !! 3)).

(** ** [Document.__getitem__] and [Document.__len__] *)

(** [(self.tokens[idx], self.corefs[idx], self.speakers[idx], self.genre)] *)
Definition Document_getitem (self : Document) (idx : Z)
    : result (string * Coref * string * string) :=
  token ←! py_index (tokens self) idx;
  coref ←! py_index (corefs self) idx;
  speaker ←! py_index (speakers self) idx;
  Ok (token, coref, speaker, genre self).

Definition Document_len (self : Document) : nat := length (tokens self).

(** ** [Corpus] *)

Module Corpus.

(** [get_vocab]: the two sets grow document by document. *)
Definition get_vocab (documents : list Document) : gset string * gset ascii :=
  foldl
    (λ '(vocab, char_vocab) document,
       (vocab ∪ list_to_set (tokens document),
        char_vocab ∪
          list_to_set (word ← tokens document; list_ascii_of_string word)))
    (∅, ∅) documents.

Record t : Type := mk {
  documents : list Document;
  vocab : gset string;
  char_vocab : gset ascii
}.

(** [Corpus(documents)] *)
Definition init (documents : list Document) : t :=
  let '(vocab, char_vocab) := get_vocab documents in
  {| documents := documents; vocab := vocab; char_vocab := char_vocab |}.

(** [corpus[idx]] *)
Definition getitem (self : t) (idx : Z) : result Document :=
  py_index (documents self) idx.

End Corpus.

(** ** Further properties of inputs and outputs *)

(** The characters [clean_token] strips. *)
Definition removed_char (c : ascii) : Prop :=
  String c EmptyString ∈ REMOVED_CHAR.

(** The document boundaries of a file: its two-field lines. *)
Definition count_boundaries (lines : list (list string)) : nat :=
  length (filter (λ cols, length cols = 2) lines).

(** A line the loop passes over: not blank, not a document boundary, and
    too short for a token record. *)
Definition ignored_line (cols : list string) : Prop :=
  length cols ≠ 0 ∧ length cols ≠ 2 ∧ length cols ≤ 7.

(** No document boundary arrives while token records wait for their
    blank line.  [waiting] tells whether records have been read since the
    last blank line or boundary. *)
Fixpoint flushed_from (waiting : bool) (lines : list (list string)) : bool :=
  match lines with
  | [] => true
  | cols :: rest =>
      if decide (length cols = 0) then flushed_from false rest
      else if decide (length cols = 2) then negb waiting && flushed_from false rest
      else if decide (7 < length cols) then flushed_from true rest
      else flushed_from waiting rest
  end.

Definition flushed (lines : list (list string)) : bool := flushed_from false lines.

(** A mention whose start is below [n], and whose end, if it has one,
    is no earlier than its start and below [n]. *)
Definition mention_below (n : nat) (m : Coref) : Prop :=
  start m < n ∧ ∀ e, end_ m = Some e → start m ≤ e < n.

(** The same with [n] allowed: the state of a mention while the record
    with index [n] is being read. *)
Definition mention_upto (n : nat) (m : Coref) : Prop :=
  start m ≤ n ∧ ∀ e, end_ m = Some e → start m ≤ e ≤ n.

(** The separators of a path. *)
Fixpoint count_char (c : ascii) (s : string) : nat :=
  match s with
  | EmptyString => 0
  | String a s' => (if decide (a = c) then 1 else 0) + count_char c s'
  end.

(** What holds of the locals of [load_file] between two lines of any
    file: speakers and tokens of the document under way match in number,
    no word read is empty, and the token counter stands at the number of
    words read for the document. *)
Definition locals_counted (st : locals) : Prop :=
  length (v_tokens st) = length (v_utts_speakers st) ∧
  Forall (λ t, t ≠ "") (v_tokens st) ∧
  Forall (λ t, t ≠ "") (v_text st) ∧
  v_index st = length (v_tokens st) + length (v_text st).

(** What holds in addition when no boundary arrives over waiting
    records: every mention lies within the words read so far. *)
Definition locals_in_bounds (waiting : bool) (st : locals) : Prop :=
  Forall (mention_below (v_index st)) (v_corefs st) ∧
  Forall (mention_below (length (v_tokens st))) (v_utts_corefs st) ∧
  (waiting = false → v_text st = [] ∧ v_corefs st = []) ∧
  (waiting = true → v_text st ≠ []) ∧
  v_index st = length (v_tokens st) + length (v_text st) ∧
  Forall (λ d, Forall (mention_below (length (tokens d))) (corefs d))
    (v_documents st).

(** A string of ASCII characters only.  On such a string the digits
    [re_match_coref] knows, 0 to 9, are all the digits [\d] matches. *)
Definition ascii_only (s : string) : Prop :=
  Forall (λ c, nat_of_ascii c < 128) (list_ascii_of_string s).

(** A cluster label as the corpus writes it: one or more of the digits 0
    to 9. *)
Definition digit_label (lbl : string) : Prop :=
  lbl ≠ "" ∧ Forall (λ c, Str.is_digit c = true) (list_ascii_of_string lbl).

(** A token record that neither opens nor closes a mention of [lbl]: its
    coreference column is ['-'], or the open marker of another label. *)
Definition passive (lbl : string) (cols : list string) : Prop :=
  10 ≤ length cols ∧
  (last_col cols = "-" ∨
   ∃ other, digit_label other ∧ other ≠ lbl ∧
            last_col cols = ("(" ++ other)%string).

(** * Properties *)

Lemma bind_Ok {A B : Type} (r : result A) (k : A → result B) (b : B) :
  bind r k = Ok b → ∃ a, r = Ok a ∧ k a = Ok b.
Proof. destruct r as [a|e]; simpl; [eauto | discriminate]. Qed.

(** ** [clean_token] *)

Example clean_token_LRB : clean_token "-LRB-" = "(".
Proof. reflexivity. Qed.

Example clean_token_word : clean_token "a/b%c*" = "abc".
Proof. reflexivity. Qed.

Example split_ws_columns : Str.split_ws " ab  c	d " = ["ab"; "c"; "d"].
Proof. reflexivity. Qed.

Example split_bar : Str.split "|" "(1|2)|" = ["(1"; "2)"; ""].
Proof. reflexivity. Qed.

(** Replacing a one-character string by the empty string drops every
    occurrence of the character. *)
Lemma replace_char_chars (c : ascii) (s : string) :
  list_ascii_of_string (Str.replace (String c EmptyString) "" s) =
  filter (λ x, x ≠ c) (list_ascii_of_string s).
Proof.
  unfold Str.replace. induction s as [|a s IH]; [reflexivity|].
  cbn [Str.replace_from Str.startswith list_ascii_of_string].
  rewrite filter_cons. destruct (decide (c = a)) as [->|Hne].
  - rewrite decide_False by tauto. simpl. exact IH.
  - rewrite decide_True by congruence.
    cbn [list_ascii_of_string]. by rewrite IH.
Qed.

Lemma string_of_chars_nil (s : string) :
  list_ascii_of_string s = [] → s = "".
Proof. destruct s; [reflexivity | discriminate]. Qed.

Lemma only_removed_chars_stripped (t : string) :
  only_removed_chars t →
  foldl (λ acc char, Str.replace char "" acc) t REMOVED_CHAR = "".
Proof.
  intros H. apply string_of_chars_nil. simpl.
  rewrite !replace_char_chars. unfold only_removed_chars in H.
  induction H as [|c l Hc _ IH]; [reflexivity|].
  unfold REMOVED_CHAR in Hc.
  rewrite !elem_of_cons, elem_of_nil in Hc.
  destruct Hc as [Hc|[Hc|[Hc|[]]]]; injection Hc as ->;
    repeat (rewrite filter_cons; simpl decide; cbv iota); exact IH.
Qed.

Lemma only_removed_chars_not_normalized (t : string) :
  only_removed_chars t → dict_get NORMALIZE_DICT t = None.
Proof.
  intros H. unfold NORMALIZE_DICT. simpl.
  repeat match goal with
         | |- context [decide (t = ?k)] =>
             destruct (decide (t = k)) as [Heq|_];
             [ exfalso; subst t; unfold only_removed_chars, REMOVED_CHAR in H;
               simpl in H;
               repeat match goal with
                      | H : Forall _ (_ :: _) |- _ => inversion H; clear H; subst
                      end;
               repeat match goal with
                      | H : _ ∈ _ :: _ |- _ =>
                          apply elem_of_cons in H; destruct H as [H|H];
                          try discriminate H
                      | H : _ ∈ [] |- _ => by apply elem_of_nil in H
                      end
             | ]
         end.
  reflexivity.
Qed.

(** C6, as the code has it: the three one-character tokens ["/"], ["%"]
    and ["*"] come back unchanged; every other token made of these
    characters only is stripped to the empty string and comes back as the
    comma. *)
Theorem clean_token_removed_chars (t : string) :
  (t ∈ REMOVED_CHAR → clean_token t = t) ∧
  (only_removed_chars t → t ∉ REMOVED_CHAR → clean_token t = ",").
Proof.
  split.
  - unfold REMOVED_CHAR. rewrite !elem_of_cons, elem_of_nil.
    intros [->|[->|[->|[]]]]; reflexivity.
  - intros Hall Hnot. unfold clean_token.
    rewrite (only_removed_chars_not_normalized t Hall).
    unfold Str.mem. rewrite bool_decide_eq_false_2 by exact Hnot.
    cbn [negb]. by rewrite (only_removed_chars_stripped t Hall).
Qed.

Lemma clean_token_removed_chars_witness :
  "%" ∈ REMOVED_CHAR ∧ clean_token "%" = "%" ∧
  only_removed_chars "/*" ∧ ("/*" ∉ REMOVED_CHAR) ∧ clean_token "/*" = ",".
Proof.
  assert (H1 : "%" ∈ REMOVED_CHAR) by (unfold REMOVED_CHAR; repeat constructor).
  assert (H2 : only_removed_chars "/*").
  { unfold only_removed_chars, REMOVED_CHAR. simpl. repeat constructor. }
  assert (H3 : "/*" ∉ REMOVED_CHAR).
  { unfold REMOVED_CHAR. rewrite !elem_of_cons, elem_of_nil.
    intros [H|[H|[H|[]]]]; discriminate H. }
  split; [exact H1|]. split; [exact (proj1 (clean_token_removed_chars "%") H1)|].
  split; [exact H2|]. split; [exact H3|].
  exact (proj2 (clean_token_removed_chars "/*") H2 H3).
Defined.

(** The claim C6 as the specification words it fails: ["//"] consists of
    removed characters only and does not come back unchanged. *)
Lemma clean_token_double_slash :
  ¬ (∀ t, only_removed_chars t → clean_token t = t).
Proof.
  intros H. specialize (H "//").
  assert (Hall : only_removed_chars "//").
  { unfold only_removed_chars, REMOVED_CHAR. simpl. repeat constructor. }
  specialize (H Hall). vm_compute in H. discriminate H.
Qed.

(** ** [LazyVectors] *)

Lemma dict_get_set {K V : Type} `{EqDecision K} (d : list (K * V)) (k k' : K) (v : V) :
  dict_get (dict_set d k v) k' = if decide (k' = k) then Some v else dict_get d k'.
Proof.
  induction d as [|[k0 v0] d IH]; simpl.
  - reflexivity.
  - destruct (decide (k = k0)) as [->|Hk]; simpl.
    + destruct (decide (k' = k0)); reflexivity.
    + rewrite IH. destruct (decide (k' = k0)) as [->|?]; [|reflexivity].
      by rewrite decide_False by congruence.
Qed.

(** A string that is not enumerated is not a key of the dictionary built
    from the enumeration. *)
Lemma build_stoi_absent (l : list (Z * string)) (d : list (string * Z)) (t : string) :
  dict_get d t = None → t ∉ l.*2 →
  dict_get (foldl (λ d '(i, s), dict_set d s i) d l) t = None.
Proof.
  revert d. induction l as [|[i s] l IH]; intros d Hd Hnot; simpl; [exact Hd|].
  simpl in Hnot. apply not_elem_of_cons in Hnot as [Hne Hnot].
  apply IH; [|exact Hnot].
  rewrite dict_get_set. by rewrite decide_False.
Qed.

Lemma enumerate_from_snd {A : Type} (n : Z) (l : list A) :
  (enumerate_from n l).*2 = l.
Proof. revert n. induction l as [|x l IH]; intros n; simpl; [|rewrite IH]; reflexivity. Qed.

Lemma stoi_absent (vocab : list string) (t : string) :
  t ∉ vocab → LazyVectors.stoi (LazyVectors.set_dicts vocab) t = 1%Z.
Proof.
  intros Hnot. unfold LazyVectors.stoi, LazyVectors.set_dicts. simpl.
  unfold LazyVectors.build_stoi, enumerate.
  rewrite build_stoi_absent; [reflexivity | reflexivity |].
  by rewrite enumerate_from_snd.
Qed.

(** Away from index 0 the shift by two is as documented. *)
Lemma stoi_present_nonzero (self : LazyVectors.t) (t : string) (idx : Z) :
  dict_get (LazyVectors._stoi self) t = Some idx → idx ≠ 0%Z →
  LazyVectors.stoi self t = (idx + 2)%Z.
Proof.
  intros Hget Hne. unfold LazyVectors.stoi. rewrite Hget. simpl.
  destruct (Z.eqb_spec idx 0); [contradiction | reflexivity].
Qed.

(** C7: a token outside the working vocabulary has index 1, whichever
    token it is, and an index that is not a key of the backward map reads
    as ['UNK'].  Both lookups are functions without an error case. *)
Theorem stoi_itos_sentinels (vocab : list string) (t : string)
    (self : LazyVectors.t) (i : Z) :
  (t ∉ vocab →
   LazyVectors.stoi (LazyVectors.set_dicts vocab) t = LazyVectors.unk_idx) ∧
  (dict_get (LazyVectors._itos self) i = None → LazyVectors.itos self i = "UNK").
Proof.
  split.
  - apply stoi_absent.
  - intros Hget. unfold LazyVectors.itos. by rewrite Hget.
Qed.

Lemma stoi_itos_sentinels_witness :
  LazyVectors.stoi (LazyVectors.set_dicts ["the"; "cat"]) "dog" = 1%Z ∧
  LazyVectors.itos (LazyVectors.set_dicts ["the"; "cat"]) 7 = "UNK".
Proof.
  pose proof (stoi_itos_sentinels ["the"; "cat"] "dog"
                (LazyVectors.set_dicts ["the"; "cat"]) 7) as [H1 H2].
  split.
  - apply H1. rewrite !elem_of_cons, elem_of_nil.
    intros [H|[H|[]]]; discriminate H.
  - apply H2. reflexivity.
Defined.

(** C1 at [vocab = ['a', 'b', 'c']]: ['b'] has working index 1, [stoi]
    sends it to 3, and [itos] reads key 3 of a backward map whose keys are
    0, 1 and 2. *)
Theorem itos_stoi_no_round_trip :
  let self := LazyVectors.set_dicts ["a"; "b"; "c"] in
  "b" ∈ LazyVectors.vocab self ∧
  LazyVectors._itos self = [(0%Z, "a"); (1%Z, "b"); (2%Z, "c")] ∧
  LazyVectors.stoi self "b" = 3%Z ∧
  LazyVectors.itos self (LazyVectors.stoi self "b") = "UNK".
Proof.
  simpl. split; [by repeat constructor|]. repeat split; reflexivity.
Qed.

(** C2 at [vocab = ['a', 'b']]: ['a'] is in the working vocabulary with
    index 0, and [stoi] answers the unknown index 1 instead of 2. *)
Theorem stoi_first_token_unknown :
  let self := LazyVectors.set_dicts ["a"; "b"] in
  dict_get (LazyVectors._stoi self) "a" = Some 0%Z ∧
  LazyVectors.stoi self "a" = 1%Z ∧
  LazyVectors.stoi self "b" = 3%Z.
Proof. simpl. repeat split; reflexivity. Qed.

(** ** [Document.truncate] *)

Lemma random_sample_range_bounds (lo hi : Z) (seed : nat) :
  (lo < hi)%Z →
  (lo ≤ random_sample_range lo hi seed < hi)%Z.
Proof.
  intros H. unfold random_sample_range.
  pose proof (Z.mod_pos_bound (Z.of_nat seed) (hi - lo)) as Hm. lia.
Qed.

(** Every index of the range is the draw of some seed. *)
Lemma random_sample_range_onto (lo hi i : Z) :
  (lo ≤ i < hi)%Z → ∃ seed, random_sample_range lo hi seed = i.
Proof.
  intros H. exists (Z.to_nat (i - lo)). unfold random_sample_range.
  rewrite Z2Nat.id by lia. rewrite Z.mod_small by lia. lia.
Qed.

Lemma py_index_in_range {A : Type} (l : list A) (i : Z) :
  (0 ≤ i < Z.of_nat (length l))%Z →
  ∃ x, l !! Z.to_nat i = Some x ∧ py_index l i = Ok x.
Proof.
  intros H. unfold py_index. cbv zeta.
  destruct (decide (i < 0)%Z) as [?|_]; [lia|].
  destruct (decide (i < 0)%Z) as [?|_]; [lia|].
  destruct (lookup_lt_is_Some_2 l (Z.to_nat i)) as [x Hx]; [lia|].
  exists x. by rewrite Hx.
Qed.




(** ** The close-marker scan *)

Lemma range_down_S (n : nat) : range_down (S n) = n :: range_down n.
Proof. unfold range_down. rewrite seq_S, rev_app_distr. reflexivity. Qed.

(** The scan stops at the last mention that is pending for the label. *)
Lemma scan_last_pending (lbl : string) (l1 l2 : list Coref) (m : Coref) (j : nat)
    (i : option nat) :
  pending lbl m = true →
  Forall (λ x, pending lbl x = false) l2 →
  j ≤ length l2 →
  scan (l1 ++ m :: l2) lbl (range_down (length l1 + 1 + j)) i = Some (length l1).
Proof.
  intros Hm Hl2. revert i. induction j as [|j IH]; intros i Hj.
  - rewrite Nat.add_0_r, Nat.add_1_r, range_down_S. simpl.
    rewrite list_lookup_middle by reflexivity. by rewrite Hm.
  - replace (length l1 + 1 + S j) with (S (length l1 + 1 + j)) by lia.
    rewrite range_down_S. simpl.
    destruct (lookup_lt_is_Some_2 l2 j) as [x Hx]; [lia|].
    assert (Hlook : (l1 ++ m :: l2) !! (length l1 + 1 + j) = Some x).
    { rewrite lookup_app_r by lia.
      replace (length l1 + 1 + j - length l1) with (S j) by lia. exact Hx. }
    rewrite Hlook.
    rewrite (proj1 (Forall_lookup _ l2) Hl2 j x Hx).
    apply IH. lia.
Qed.


Lemma close_marker_last_pending (lbl : string) (l1 l2 : list Coref) (m : Coref)
    (index : nat) (i : option nat) :
  pending lbl m = true →
  Forall (λ x, pending lbl x = false) l2 →
  close_marker (l1 ++ m :: l2) lbl index i =
    Ok (l1 ++ set_end index m :: l2, Some (length l1)).
Proof.
  intros Hm Hl2. unfold close_marker.
  replace (length (l1 ++ m :: l2)) with (length l1 + 1 + length l2)
    by (rewrite length_app; simpl; lia).
  rewrite (scan_last_pending lbl l1 l2 m (length l2) i Hm Hl2) by lia.
  rewrite list_lookup_middle by reflexivity.
  by rewrite insert_app_r_alt, Nat.sub_diag by lia.
Qed.



Lemma pending_open_mention (lbl : string) (s : nat) :
  pending lbl (open_mention lbl s) = true.
Proof.
  unfold pending, open_mention. simpl.
  by rewrite !bool_decide_eq_true_2.
Qed.

Lemma pending_set_end (lbl : string) (index : nat) (m : Coref) :
  pending lbl (set_end index m) = false.
Proof.
  unfold pending, set_end. cbn [end_].
  apply andb_false_intro2. by apply bool_decide_eq_false_2.
Qed.

(** ** [load_file]: single lines *)

Lemma py_index_nat {A : Type} (l : list A) (k : nat) :
  py_index l (Z.of_nat k) =
    match l !! k with Some x => Ok x | None => Raise IndexError end.
Proof.
  unfold py_index. cbv zeta.
  destruct (decide (Z.of_nat k < 0)%Z) as [?|_]; [lia|].
  destruct (decide (Z.of_nat k < 0)%Z) as [?|_]; [lia|].
  by rewrite Nat2Z.id.
Qed.

Lemma run_app (fix_coref_spans : Document → Document) (genre : string)
    (st : locals) (l1 l2 : list (list string)) :
  run fix_coref_spans genre st (l1 ++ l2) =
    (st' ←! run fix_coref_spans genre st l1; run fix_coref_spans genre st' l2).
Proof.
  revert st. induction l1 as [|cols l1 IH]; intros st; simpl; [reflexivity|].
  destruct (step fix_coref_spans genre st cols) as [st1|e]; simpl; [apply IH | reflexivity].
Qed.

Section lines.

Variable fix_coref_spans : Document → Document.
Variable genre_of_file : string.

Lemma step_token_record (st : locals) (cols : list string) :
  7 < length cols → step fix_coref_spans genre_of_file st cols = token_record st cols.
Proof.
  intros H. unfold step.
  rewrite decide_False by lia. rewrite decide_False by lia.
  by rewrite decide_True by lia.
Qed.

(** What a token record does to the accumulators. *)
Lemma token_record_effect (st st' : locals) (cols : list string) :
  token_record st cols = Ok st' →
  v_documents st' = v_documents st ∧
  v_tokens st' = v_tokens st ∧
  v_utts_corefs st' = v_utts_corefs st ∧
  v_utts_speakers st' = v_utts_speakers st ∧
  v_text st' = v_text st ++ [word_of cols] ∧
  v_speaker st' = cols !! 9 ∧
  v_index st' = v_index st + 1.
Proof.
  unfold token_record. intros H.
  apply bind_Ok in H as (tok & Htok & H).
  apply bind_Ok in H as (spk & Hspk & H).
  apply bind_Ok in H as (acc & _ & H).
  injection H as <-. simpl.
  change 3%Z with (Z.of_nat 3) in Htok. rewrite py_index_nat in Htok.
  change 9%Z with (Z.of_nat 9) in Hspk. rewrite py_index_nat in Hspk.
  unfold word_of.
  destruct (cols !! 3) as [tok'|]; [|discriminate Htok].
  destruct (cols !! 9) as [spk'|]; [|discriminate Hspk].
  injection Htok as ->. injection Hspk as ->. by repeat split.
Qed.

(** A run of token records only grows the utterance buffer. *)
Lemma run_records (st st' : locals) (recs : list (list string)) :
  Forall (λ cols, 7 < length cols) recs →
  run fix_coref_spans genre_of_file st recs = Ok st' →
  v_tokens st' = v_tokens st ∧
  v_utts_speakers st' = v_utts_speakers st ∧
  v_text st' = v_text st ++ (word_of <$> recs).
Proof.
  intros Hall. revert st. induction Hall as [|cols recs Hcols _ IH]; intros st H.
  - simpl in H. injection H as <-. by rewrite app_nil_r.
  - simpl in H. apply bind_Ok in H as (st1 & Hstep & H).
    rewrite step_token_record in Hstep by exact Hcols.
    apply token_record_effect in Hstep as (_ & Ht & _ & Hs & Htext & _).
    destruct (IH st1 H) as (IHt & IHs & IHtext).
    rewrite IHt, IHs, IHtext, Ht, Hs, Htext.
    by rewrite <- app_assoc.
Qed.

(** C9: an utterance is a run of token records closed by a blank line.
    At the blank line every one of its tokens gets the speaker column of
    the last record: the speakers appended are that one value, repeated
    once per record, and the speaker columns of the records before the
    last play no part. *)
Theorem utterance_speaker_of_last_record (st st' : locals)
    (recs : list (list string)) (last_rec : list string) :
  v_text st = [] →
  Forall (λ cols, 7 < length cols) (recs ++ [last_rec]) →
  run fix_coref_spans genre_of_file st (recs ++ [last_rec]) = Ok st' →
  ∃ speaker st'',
    last_rec !! 9 = Some speaker ∧
    step fix_coref_spans genre_of_file st' [] = Ok st'' ∧
    v_tokens st'' = v_tokens st ++ (word_of <$> recs ++ [last_rec]) ∧
    v_utts_speakers st'' =
      v_utts_speakers st ++ replicate (length (recs ++ [last_rec])) speaker.
Proof.
  intros Htext Hall Hrun.
  pose proof (run_records st st' _ Hall Hrun) as (Ht & Hs & Htx).
  rewrite Htext in Htx. simpl in Htx.
  rewrite run_app in Hrun. apply bind_Ok in Hrun as (st1 & _ & Hlast).
  simpl in Hlast. apply bind_Ok in Hlast as (st2 & Hstep & Heq).
  injection Heq as ->.
  apply Forall_app in Hall as [_ Hlast]. apply Forall_inv in Hlast.
  rewrite step_token_record in Hstep by exact Hlast.
  pose proof Hstep as Hspk.
  apply token_record_effect in Hspk as (_ & _ & _ & _ & _ & Hspk & _).
  unfold token_record in Hstep.
  apply bind_Ok in Hstep as (tok & _ & Hstep).
  apply bind_Ok in Hstep as (speaker & Hidx & _).
  change 9%Z with (Z.of_nat 9) in Hidx. rewrite py_index_nat in Hidx.
  destruct (last_rec !! 9) as [spk|] eqn:Hcol; [|discriminate Hidx].
  injection Hidx as ->.
  assert (Hlen : length (v_text st') = length (recs ++ [last_rec])).
  { by rewrite Htx, length_fmap. }
  destruct (v_text st') as [|w ws] eqn:Htxt.
  { rewrite length_app in Hlen. simpl in Hlen. lia. }
  exists speaker. eexists. split; [reflexivity|].
  unfold step. rewrite decide_True by reflexivity.
  unfold end_utterance. rewrite Htxt, Hspk.
  split; [reflexivity|]. cbn [v_tokens v_utts_speakers].
  by rewrite Ht, Hs, Hlen, Htx.
Qed.

(** The document built at a two-field line is made of the accumulators
    alone; the utterance buffer [text] is emptied, the buffer [corefs]
    is kept. *)
Lemma end_document_effect (st : locals) :
  end_document fix_coref_spans genre_of_file st =
    Ok {| v_documents :=
            v_documents st ++
              [fix_coref_spans
                 (mkDocument (v_tokens st) (v_utts_corefs st)
                    (v_utts_speakers st) genre_of_file)];
          v_tokens := []; v_text := []; v_utts_corefs := [];
          v_utts_speakers := []; v_corefs := v_corefs st; v_index := 0;
          v_speaker := v_speaker st; v_i := v_i st |}.
Proof. reflexivity. Qed.

(** Two mentions of label 7 opened at tokens 2 and 5, closed at tokens 6
    and 8. *)
Example load_nested_same_label :
  load_cols fix_coref_spans genre_of_file
    [record "a" "A" "-"; record "b" "A" "-"; record "c" "A" "(7";
     record "d" "A" "-"; record "e" "A" "-"; record "f" "A" "(7|(3";
     record "g" "A" "7)|3)"; record "h" "A" "-"; record "i" "B" "7)";
     []; end_document_line]
  = Ok [fix_coref_spans
          {| tokens := ["a"; "b"; "c"; "d"; "e"; "f"; "g"; "h"; "i"];
             corefs := [mkCoref "7" 2 (Some 8) None;
                        mkCoref "7" 5 (Some 6) None;
                        mkCoref "3" 5 (Some 6) None];
             speakers := replicate 9 "B";
             genre := genre_of_file |}].
Proof. vm_compute. reflexivity. Qed.

(** C4 at a close marker [2)] that follows the resolved mention [(1)]
    in one utterance: no exception is raised, and the end of the mention
    of label 1 moves from token 0 to token 1. *)
Theorem unmatched_close_overwrites_first_mention :
  load_cols fix_coref_spans genre_of_file
    [record "John" "A" "(1)"; record "left" "A" "2)"; []; end_document_line]
  = Ok [fix_coref_spans
          {| tokens := ["John"; "left"];
             corefs := [mkCoref "1" 0 (Some 1) None];
             speakers := ["A"; "A"];
             genre := genre_of_file |}].
Proof. vm_compute. reflexivity. Qed.

(** With the utterance buffer empty the same close marker does raise. *)
Example unmatched_close_empty_buffer :
  load_cols fix_coref_spans genre_of_file [record "left" "A" "2)"; []; end_document_line]
  = Raise UnboundLocalError.
Proof. vm_compute. reflexivity. Qed.

(** C10 at a file whose first document ends while the record of ["a"],
    with the mention [(1)], waits in the utterance buffer: the first
    document is empty, and the mention of ["a"] turns up in the second
    document, on the token ["b"]. *)
Theorem pending_mentions_reach_next_document :
  load_cols fix_coref_spans genre_of_file
    [record "a" "A" "(1)"; end_document_line;
     record "b" "B" "-"; []; end_document_line]
  = Ok [fix_coref_spans
          {| tokens := []; corefs := []; speakers := []; genre := genre_of_file |};
        fix_coref_spans
          {| tokens := ["b"];
             corefs := [mkCoref "1" 0 (Some 0) None];
             speakers := ["B"];
             genre := genre_of_file |}].
Proof. vm_compute. reflexivity. Qed.

End lines.

Lemma utterance_speaker_of_last_record_witness :
  ∃ speaker st'',
    record "he" "B" "-" !! 9 = Some speaker ∧
    step fill_spans "bc"
      (mkLocals [] [] ["John"; "he"] [] [] [] 2 (Some "B") None) [] = Ok st'' ∧
    v_tokens st'' = [] ++ (word_of <$> [record "John" "A" "-"] ++ [record "he" "B" "-"]) ∧
    v_utts_speakers st'' =
      [] ++ replicate (length ([record "John" "A" "-"] ++ [record "he" "B" "-"])) speaker.
Proof.
  apply (utterance_speaker_of_last_record fill_spans "bc" init_locals
           (mkLocals [] [] ["John"; "he"] [] [] [] 2 (Some "B") None)
           [record "John" "A" "-"] (record "he" "B" "-")).
  - reflexivity.
  - repeat constructor; simpl; lia.
  - vm_compute. reflexivity.
Defined.

(** ** [load_file]: well-formed files *)

Lemma opened_of_snoc (corefs : list Coref) (x : Coref) :
  opened_of (corefs ++ [x]) =
    match end_ x with
    | None => label x :: opened_of corefs
    | Some _ => opened_of corefs
    end.
Proof.
  unfold opened_of. rewrite filter_app, fmap_app, rev_app_distr.
  rewrite filter_cons, filter_nil.
  destruct (end_ x) as [e|] eqn:He.
  - by rewrite decide_False by discriminate.
  - by rewrite decide_True by reflexivity.
Qed.

Lemma pending_false_resolved (lbl : string) (x : Coref) (e : nat) :
  end_ x = Some e → pending lbl x = false.
Proof.
  intros He. unfold pending. rewrite He.
  apply andb_false_intro2. by apply bool_decide_eq_false_2.
Qed.

Lemma pending_false_other (lbl : string) (x : Coref) :
  lbl ≠ label x → pending lbl x = false.
Proof.
  intros Hne. unfold pending.
  apply andb_false_intro1. apply bool_decide_eq_false_2. congruence.
Qed.

Lemma pending_true (lbl : string) (x : Coref) :
  pending lbl x = true → label x = lbl ∧ end_ x = None.
Proof.
  unfold pending. intros H. apply andb_true_iff in H as [H1 H2].
  by apply bool_decide_eq_true_1 in H1, H2.
Qed.

(** A label the reader can close is the label of a mention the scan
    finds, and closing does to the reader's stack what resolving that
    mention does to the list. *)
Lemma remove_one_opened_of (lbl : string) (index : nat) (corefs : list Coref)
    (opened' : list string) :
  remove_one lbl (opened_of corefs) = Some opened' →
  ∃ l1 m l2,
    corefs = l1 ++ m :: l2 ∧
    pending lbl m = true ∧
    Forall (λ x, pending lbl x = false) l2 ∧
    opened_of (l1 ++ set_end index m :: l2) = opened'.
Proof.
  revert opened'. induction corefs as [|x corefs IH] using rev_ind; intros opened' H.
  - discriminate H.
  - rewrite opened_of_snoc in H. destruct (end_ x) as [e|] eqn:He.
    + destruct (IH opened' H) as (l1 & m & l2 & -> & Hm & Hl2 & Hop).
      exists l1, m, (l2 ++ [x]). split; [by rewrite <- app_assoc|].
      split; [exact Hm|]. split.
      * apply Forall_app. split; [exact Hl2|].
        constructor; [by eapply pending_false_resolved | constructor].
      * rewrite app_comm_cons, app_assoc, opened_of_snoc. by rewrite He.
    + simpl in H. destruct (decide (lbl = label x)) as [Heq|Hne].
      * injection H as <-. exists corefs, x, []. split; [reflexivity|].
        split.
        { unfold pending. rewrite He. by rewrite !bool_decide_eq_true_2. }
        split; [constructor|].
        rewrite opened_of_snoc. reflexivity.
      * destruct (remove_one lbl (opened_of corefs)) as [r|] eqn:Hr; [|discriminate H].
        injection H as <-.
        destruct (IH r eq_refl) as (l1 & m & l2 & -> & Hm & Hl2 & Hop).
        exists l1, m, (l2 ++ [x]). split; [by rewrite <- app_assoc|].
        split; [exact Hm|]. split.
        { apply Forall_app. split; [exact Hl2|].
          constructor; [by apply pending_false_other | constructor]. }
        rewrite app_comm_cons, app_assoc, opened_of_snoc. by rewrite He, Hop.
Qed.

Lemma opened_of_nil_resolved (index : nat) (corefs : list Coref) :
  opened_of corefs = [] →
  Forall (mention_bounded index) corefs →
  Forall mention_ok corefs.
Proof.
  induction corefs as [|x corefs IH] using rev_ind; intros Hop Hall; [constructor|].
  rewrite opened_of_snoc in Hop.
  apply Forall_app in Hall as [Hall Hx]. apply Forall_inv in Hx.
  unfold mention_bounded in Hx.
  destruct (end_ x) as [e|] eqn:He; [|discriminate Hop].
  apply Forall_app. split; [by apply IH|].
  constructor; [|constructor]. exists e. by split.
Qed.

Lemma mention_bounded_mono (index index' : nat) (m : Coref) :
  index ≤ index' → mention_bounded index m → mention_bounded index' m.
Proof. unfold mention_bounded. destruct (end_ m); lia. Qed.

Lemma init_locals_ok : locals_ok [] init_locals.
Proof.
  unfold locals_ok, init_locals. cbn. repeat split; try constructor.
  by intros [].
Qed.

Section well_formed.

Variable fix_coref_spans : Document → Document.
Variable genre_of_file : string.
Hypothesis fix_ok : fills_spans_only fix_coref_spans.

Lemma fix_coref_spans_document_ok (d : Document) :
  document_ok d → document_ok (fix_coref_spans d).
Proof.
  intros [Hlen Hall]. destruct (fix_ok d) as (Ht & Hs & Hc).
  split; [by rewrite Ht, Hs|].
  induction Hc as [|m' m l' l (_ & Hst & Hend) _ IH]; [constructor|].
  apply Forall_cons in Hall as [[e [He Hle]] Hall].
  constructor; [|by apply IH].
  exists e. rewrite Hend, Hst. by split.
Qed.

(** One label token of a well-formed column. *)
Lemma coref_token_wf (index : nat) (corefs : list Coref) (i : option nat)
    (token : string) (opened' : list string) :
  wf_coref_token (opened_of corefs) token = Some opened' →
  Forall (mention_bounded index) corefs →
  ∃ corefs' i',
    coref_token index (corefs, i) token = Ok (corefs', i') ∧
    opened_of corefs' = opened' ∧
    Forall (mention_bounded index) corefs'.
Proof.
  unfold wf_coref_token, coref_token. intros Hwf Hall.
  destruct (re_match_coref token) as [[[g1 lbl] g3]|]; [|discriminate Hwf].
  set (corefs1 := if decide (g1 = "(") then corefs ++ [open_mention lbl index]
                  else corefs) in *.
  assert (Hop1 : opened_of corefs1 =
                 if decide (g1 = "(") then lbl :: opened_of corefs
                 else opened_of corefs).
  { subst corefs1. destruct (decide (g1 = "(")); [|reflexivity].
    by rewrite opened_of_snoc. }
  assert (Hall1 : Forall (mention_bounded index) corefs1).
  { subst corefs1. destruct (decide (g1 = "(")); [|exact Hall].
    apply Forall_app. split; [exact Hall|].
    constructor; [|constructor]. unfold mention_bounded. simpl. lia. }
  rewrite <- Hop1 in Hwf. clearbody corefs1.
  destruct (decide (g3 = ")")) as [_|_].
  - destruct (remove_one_opened_of lbl index corefs1 opened' Hwf)
      as (l1 & m & l2 & -> & Hm & Hl2 & Hop).
    rewrite (close_marker_last_pending lbl l1 l2 m index i Hm Hl2).
    eexists _, _. split; [reflexivity|]. split; [exact Hop|].
    apply Forall_app in Hall1 as [H1 H2].
    apply Forall_cons in H2 as [Hb H2].
    apply Forall_app. split; [exact H1|]. constructor; [|exact H2].
    apply pending_true in Hm as [_ Hm].
    unfold mention_bounded in *. rewrite Hm in Hb. simpl. exact Hb.
  - injection Hwf as <-. eexists _, _. by repeat split.
Qed.

Lemma coref_tokens_wf (index : nat) (coref_expr : list string)
    (corefs : list Coref) (i : option nat) (opened' : list string) :
  wf_coref_tokens (opened_of corefs) coref_expr = Some opened' →
  Forall (mention_bounded index) corefs →
  ∃ corefs' i',
    coref_tokens index (corefs, i) coref_expr = Ok (corefs', i') ∧
    opened_of corefs' = opened' ∧
    Forall (mention_bounded index) corefs'.
Proof.
  revert corefs i. induction coref_expr as [|token rest IH]; intros corefs i Hwf Hall.
  - injection Hwf as <-. eexists _, _. by repeat split.
  - simpl in Hwf.
    destruct (wf_coref_token (opened_of corefs) token) as [o1|] eqn:Htok;
      [|discriminate Hwf].
    destruct (coref_token_wf index corefs i token o1 Htok Hall)
      as (corefs1 & i1 & Hrun & <- & Hall1).
    destruct (IH corefs1 i1 Hwf Hall1) as (corefs2 & i2 & Hrun2 & Hop2 & Hall2).
    exists corefs2, i2. cbn [coref_tokens]. rewrite Hrun. cbn [bind].
    by repeat split.
Qed.

(** One line of a well-formed file: the loop body raises nothing and
    keeps [locals_ok]. *)
Lemma step_wf (opened opened' : list string) (st : locals) (cols : list string) :
  wf_line opened cols = Some opened' →
  locals_ok opened st →
  ∃ st', step fix_coref_spans genre_of_file st cols = Ok st' ∧ locals_ok opened' st'.
Proof.
  unfold wf_line, step.
  intros Hwf (Hop & Hutts & Hcor & Hlen & Hspk & Hdocs).
  destruct (decide (length cols = 0)) as [_|_].
  - destruct (decide (opened = [])) as [->|]; [|discriminate Hwf].
    injection Hwf as <-. unfold end_utterance.
    destruct (v_text st) as [|w ws] eqn:Htext.
    + exists st. split; [reflexivity|].
      unfold locals_ok. rewrite Htext. by repeat split.
    + destruct (Hspk ltac:(discriminate)) as [speaker Hs]. rewrite Hs.
      eexists. split; [reflexivity|].
      unfold locals_ok. cbn -[length replicate].
      split; [reflexivity|]. split.
      { apply Forall_app. split; [exact Hutts|].
        by eapply opened_of_nil_resolved. }
      split; [constructor|]. split.
      { by rewrite !length_app, length_replicate, Hlen. }
      split; [by intros []|exact Hdocs].
  - destruct (decide (length cols = 2)) as [_|_].
    + destruct (decide (opened = [])) as [->|]; [|discriminate Hwf].
      injection Hwf as <-. rewrite end_document_effect.
      eexists. split; [reflexivity|].
      unfold locals_ok. cbn.
      split; [exact Hop|]. split; [constructor|]. split.
      { eapply Forall_impl;
          [exact (opened_of_nil_resolved _ _ Hop Hcor)|].
        intros m [e [He Hle]]. unfold mention_bounded. by rewrite He. }
      split; [reflexivity|]. split; [by intros []|].
      apply Forall_app. split; [exact Hdocs|].
      constructor; [|constructor].
      apply fix_coref_spans_document_ok. by split.
    + destruct (decide (7 < length cols)) as [H7|_].
      * destruct (decide (10 ≤ length cols)) as [H10|]; [|discriminate Hwf].
        unfold token_record.
        change 3%Z with (Z.of_nat 3). change 9%Z with (Z.of_nat 9).
        rewrite !py_index_nat.
        destruct (lookup_lt_is_Some_2 cols 3) as [tok ->]; [lia|].
        destruct (lookup_lt_is_Some_2 cols 9) as [speaker ->]; [lia|].
        cbn [bind].
        assert (Hacc : ∃ corefs' i',
                  (if decide (last_col cols ≠ "-")
                   then coref_tokens (v_index st) (v_corefs st, v_i st)
                          (Str.split "|" (last_col cols))
                   else Ok (v_corefs st, v_i st)) = Ok (corefs', i') ∧
                  opened_of corefs' = opened' ∧
                  Forall (mention_bounded (v_index st)) corefs').
        { destruct (decide (last_col cols ≠ "-")) as [_|_].
          - subst opened. by apply coref_tokens_wf.
          - injection Hwf as <-. eexists _, _. by repeat split. }
        destruct Hacc as (corefs' & i' & -> & Hop' & Hcor').
        eexists. split; [reflexivity|].
        unfold locals_ok. cbn.
        split; [exact Hop'|]. split; [exact Hutts|]. split.
        { eapply Forall_impl; [exact Hcor'|].
          intros m. apply mention_bounded_mono. lia. }
        split; [exact Hlen|]. split; [by eauto|exact Hdocs].
      * injection Hwf as <-. exists st. by repeat split.
Qed.

Lemma run_wf (lines : list (list string)) (opened : list string) (st : locals) :
  wf_lines opened lines = true →
  locals_ok opened st →
  ∃ st', run fix_coref_spans genre_of_file st lines = Ok st' ∧
         Forall document_ok (v_documents st').
Proof.
  revert opened st. induction lines as [|cols rest IH]; intros opened st Hwf Hok.
  - exists st. split; [reflexivity|]. apply Hok.
  - simpl in Hwf.
    destruct (wf_line opened cols) as [o1|] eqn:Hline; [|discriminate Hwf].
    destruct (step_wf opened o1 st cols Hline Hok) as (st1 & Hstep & Hok1).
    destruct (IH o1 st1 Hwf Hok1) as (st2 & Hrun & Hdocs).
    exists st2. cbn [run]. rewrite Hstep. cbn [bind]. by split.
Qed.

(** C5: on a well-formed file the loader returns, and in every document
    it returns each mention is resolved with its end no earlier than
    its start, and there are as many speakers as tokens. *)
Theorem load_cols_documents_ok (lines : list (list string)) :
  well_formed lines = true →
  ∃ documents,
    load_cols fix_coref_spans genre_of_file lines = Ok documents ∧
    Forall document_ok documents.
Proof.
  intros Hwf. unfold load_cols.
  destruct (run_wf lines [] init_locals Hwf) as (st & Hrun & Hdocs).
  { apply init_locals_ok. }
  exists (v_documents st). rewrite Hrun. by split.
Qed.

End well_formed.

Lemma fill_spans_ok : fills_spans_only fill_spans.
Proof.
  intros d. unfold fill_spans. cbn. split; [reflexivity|]. split; [reflexivity|].
  induction (corefs d) as [|m l IH]; [constructor|].
  rewrite fmap_cons. constructor; [by repeat split | exact IH].
Qed.

Lemma load_cols_documents_ok_witness :
  ∃ documents,
    load_cols fill_spans "bc"
      [record "John" "A" "(5)"; record "said" "A" "-"; record "he" "A" "(6)";
       record "left" "A" "-"; []; end_document_line]
    = Ok documents ∧ Forall document_ok documents.
Proof.
  apply (load_cols_documents_ok fill_spans "bc" fill_spans_ok).
  vm_compute. reflexivity.
Defined.

(** The same for [load_file], on a path with a seventh segment. *)
Corollary load_file_documents_ok (fix_coref_spans : Document → Document)
    (filename : string) (lines : list string) :
  fills_spans_only fix_coref_spans →
  is_Some (Str.split "/" filename !! 6) →
  well_formed (Str.split_ws <$> lines) = true →
  ∃ documents,
    load_file fix_coref_spans filename lines = Ok documents ∧
    Forall document_ok documents.
Proof.
  intros Hfix [genre_of_file Hg] Hwf. unfold load_file, load_cols.
  change 6%Z with (Z.of_nat 6). rewrite py_index_nat, Hg. cbn [bind].
  destruct (run_wf fix_coref_spans genre_of_file Hfix _ [] init_locals Hwf)
    as (st & Hrun & Hdocs).
  { apply init_locals_ok. }
  exists (v_documents st). rewrite Hrun. by split.
Qed.

(** * Further properties *)

(** ** [clean_token], continued *)

Lemma dict_get_Some_elem {K V : Type} `{EqDecision K} (d : list (K * V)) (k : K) (v : V) :
  dict_get d k = Some v → (k, v) ∈ d.
Proof.
  induction d as [|[k' v'] d IH]; simpl; [discriminate|].
  destruct (decide (k = k')) as [->|_].
  - intros [= ->]. apply list_elem_of_here.
  - intros H. apply list_elem_of_further. by apply IH.
Qed.

Lemma chars_inj (s t : string) :
  list_ascii_of_string s = list_ascii_of_string t → s = t.
Proof.
  intros H. rewrite <- (string_of_list_ascii_of_string s),
    <- (string_of_list_ascii_of_string t). by rewrite H.
Qed.

Lemma removed_char_cases (c : ascii) :
  removed_char c ↔ c = "/"%char ∨ c = "%"%char ∨ c = "*"%char.
Proof.
  unfold removed_char, REMOVED_CHAR. rewrite !elem_of_cons, elem_of_nil.
  split.
  - intros [H|[H|[H|[]]]]; injection H as ->; tauto.
  - intros [-> | [-> | ->]]; tauto.
Qed.

(** The characters left by the three replacements. *)
Lemma stripped_chars (t : string) :
  list_ascii_of_string (foldl (λ acc char, Str.replace char "" acc) t REMOVED_CHAR) =
  filter (λ c, ¬ removed_char c) (list_ascii_of_string t).
Proof.
  simpl. rewrite !replace_char_chars.
  induction (list_ascii_of_string t) as [|c l IH]; [reflexivity|].
  rewrite (filter_cons (λ c, ¬ removed_char c)).
  destruct (decide (¬ removed_char c)) as [Hc|Hc].
  - rewrite removed_char_cases in Hc.
    rewrite filter_cons, decide_True by tauto.
    rewrite filter_cons, decide_True by tauto.
    rewrite filter_cons, decide_True by tauto.
    by rewrite IH.
  - apply dec_stable in Hc. apply removed_char_cases in Hc.
    destruct Hc as [-> | [-> | ->]].
    + rewrite filter_cons, decide_False by tauto. exact IH.
    + rewrite filter_cons, decide_True by discriminate.
      rewrite filter_cons, decide_False by tauto. exact IH.
    + rewrite filter_cons, decide_True by discriminate.
      rewrite filter_cons, decide_True by discriminate.
      rewrite filter_cons, decide_False by tauto. exact IH.
Qed.

Lemma removed_char_iff (t : string) :
  t ∈ REMOVED_CHAR ↔ ∃ c, t = String c EmptyString ∧ removed_char c.
Proof.
  unfold removed_char, REMOVED_CHAR. rewrite !elem_of_cons, elem_of_nil. split.
  - intros [->|[->|[->|[]]]]; eexists; (split; [reflexivity|]);
      rewrite !elem_of_cons; tauto.
  - intros (c & -> & H). rewrite !elem_of_cons, elem_of_nil in H. exact H.
Qed.

Lemma clean_token_nonempty (token : string) : clean_token token ≠ "".
Proof.
  unfold clean_token.
  match goal with
  | |- (if decide (String.length ?s = 0) then _ else _) ≠ _ =>
      destruct (decide (String.length s = 0)) as [_|Hlen];
      [discriminate | intros Heq; apply Hlen; by rewrite Heq]
  end.
Qed.

(** X1.  The shape of every normalised token: never the empty string, and
    either one of the three one-character tokens ['/'], ['%'], ['*'] or
    free of these characters. *)
Theorem clean_token_shape (token : string) :
  clean_token token ≠ "" ∧
  (clean_token token ∈ REMOVED_CHAR ∨
   Forall (λ c, ¬ removed_char c) (list_ascii_of_string (clean_token token))).
Proof.
  unfold clean_token.
  destruct (dict_get NORMALIZE_DICT token) as [v|] eqn:Hget.
  - apply dict_get_Some_elem in Hget. unfold NORMALIZE_DICT in Hget.
    rewrite !elem_of_cons, elem_of_nil in Hget.
    assert (Hfree : ∀ c, c ≠ "/"%char → c ≠ "%"%char → c ≠ "*"%char →
                         ¬ removed_char c).
    { intros c H1 H2 H3. rewrite removed_char_cases. tauto. }
    repeat destruct Hget as [[= _ ->]|Hget]; try destruct Hget;
      match goal with
      | |- ?r ≠ "" ∧ _ => let r' := eval vm_compute in r in change r with r'
      end;
      (split; [discriminate|]); right; cbn [list_ascii_of_string];
      (constructor; [|constructor]); by apply Hfree.
  - destruct (Str.mem token REMOVED_CHAR) eqn:Hmem; cbn [negb].
    + apply bool_decide_eq_true_1 in Hmem.
      destruct (proj1 (removed_char_iff token) Hmem) as (c & -> & _).
      cbn. split; [discriminate|]. by left.
    + set (s := foldl _ token REMOVED_CHAR).
      assert (Hs : Forall (λ c, ¬ removed_char c) (list_ascii_of_string s)).
      { subst s. rewrite stripped_chars.
        apply Forall_forall. intros c Hc. by apply list_elem_of_filter in Hc as [Hc _]. }
      clearbody s. destruct (decide (String.length s = 0)) as [_|Hlen].
      * split; [discriminate|]. right. constructor; [|constructor].
        rewrite removed_char_cases. intros [H|[H|H]]; discriminate H.
      * split; [|by right]. intros ->. by apply Hlen.
Qed.

(** X2.  The eight CoNLL-2012 codes come back as the character they stand
    for; the codes ["/."] and ["/?"], which begin with a removed
    character, are looked up before anything is stripped. *)
Theorem clean_token_normalize_dict (code char : string) :
  (code, char) ∈ NORMALIZE_DICT → clean_token code = char.
Proof.
  unfold NORMALIZE_DICT. rewrite !elem_of_cons, elem_of_nil.
  intros H. repeat destruct H as [[= -> ->]|H]; try destruct H; reflexivity.
Qed.

Lemma clean_token_normalize_dict_witness :
  ("/.", ".") ∈ NORMALIZE_DICT ∧ clean_token "/." = ".".
Proof.
  assert (H : ("/.", ".") ∈ NORMALIZE_DICT) by (unfold NORMALIZE_DICT; repeat constructor).
  split; [exact H | exact (clean_token_normalize_dict "/." "." H)].
Defined.

(** X3.  A token that is no code, is not empty and holds none of the removed
    characters is left as it is. *)
Theorem clean_token_plain (token : string) :
  dict_get NORMALIZE_DICT token = None →
  token ≠ "" →
  Forall (λ c, ¬ removed_char c) (list_ascii_of_string token) →
  clean_token token = token.
Proof.
  intros Hget Hne Hfree. unfold clean_token. rewrite Hget.
  assert (Hmem : Str.mem token REMOVED_CHAR = false).
  { apply bool_decide_eq_false_2. intros Hin.
    destruct (proj1 (removed_char_iff token) Hin) as (c & -> & Hc).
    by apply Forall_inv in Hfree. }
  rewrite Hmem. cbn [negb].
  assert (Hs : foldl (λ acc char, Str.replace char "" acc) token REMOVED_CHAR = token).
  { apply chars_inj. rewrite stripped_chars.
    induction Hfree as [|c l Hc _ IH]; [reflexivity|].
    by rewrite filter_cons, decide_True, IH by exact Hc. }
  rewrite Hs. destruct (decide (String.length token = 0)) as [Hlen|_]; [|reflexivity].
  destruct token; [contradiction | discriminate Hlen].
Qed.

Lemma clean_token_plain_witness :
  clean_token "John" = "John".
Proof.
  apply clean_token_plain.
  - reflexivity.
  - discriminate.
  - cbn. repeat constructor; rewrite removed_char_cases;
      intros [H|[H|H]]; discriminate H.
Defined.

(** ** [LazyVectors], continued *)

Lemma enumerate_from_snoc {A : Type} (n : Z) (l : list A) (x : A) :
  enumerate_from n (l ++ [x]) =
  enumerate_from n l ++ [((n + Z.of_nat (length l))%Z, x)].
Proof.
  revert n. induction l as [|y l IH]; intros n.
  - simpl. by rewrite Z.add_0_r.
  - cbn [enumerate_from app length]. rewrite IH.
    replace (n + 1 + Z.of_nat (length l))%Z with (n + Z.of_nat (S (length l)))%Z
      by lia.
    reflexivity.
Qed.

Lemma build_stoi_snoc (l : list string) (x : string) :
  LazyVectors.build_stoi (l ++ [x]) =
  dict_set (LazyVectors.build_stoi l) x (Z.of_nat (length l)).
Proof.
  unfold LazyVectors.build_stoi, enumerate.
  by rewrite enumerate_from_snoc, foldl_snoc.
Qed.

(** The forward map sends a string to its last position in the
    vocabulary. *)
Lemma build_stoi_lookup (vocab : list string) (s : string) (i : Z) :
  dict_get (LazyVectors.build_stoi vocab) s = Some i ↔
  ∃ k, i = Z.of_nat k ∧ vocab !! k = Some s ∧ s ∉ drop (S k) vocab.
Proof.
  revert i. induction vocab as [|x l IH] using rev_ind; intros i.
  - split; [discriminate|]. by intros (k & _ & H & _).
  - rewrite build_stoi_snoc, dict_get_set.
    destruct (decide (s = x)) as [->|Hne].
    + split.
      * intros [= <-]. exists (length l). split; [reflexivity|].
        split; [by apply list_lookup_middle|].
        rewrite drop_ge by (rewrite length_app; simpl; lia). apply not_elem_of_nil.
      * intros (k & -> & Hk & Hnot).
        destruct (decide (k < length l)) as [Hlt|Hge].
        { exfalso. apply Hnot. rewrite drop_app_le by lia.
          apply elem_of_app. right. apply list_elem_of_here. }
        apply lookup_lt_Some in Hk. rewrite length_app in Hk. simpl in Hk.
        do 2 f_equal. lia.
    + rewrite IH. split.
      * intros (k & -> & Hk & Hnot). exists k. split; [reflexivity|].
        pose proof (lookup_lt_Some _ _ _ Hk) as Hlt.
        split; [by rewrite lookup_app_l|].
        rewrite drop_app_le by lia. rewrite elem_of_app, list_elem_of_singleton.
        tauto.
      * intros (k & -> & Hk & Hnot). exists k. split; [reflexivity|].
        destruct (decide (k < length l)) as [Hlt|Hge].
        { rewrite lookup_app_l in Hk by lia. split; [exact Hk|].
          rewrite drop_app_le in Hnot by lia. rewrite elem_of_app in Hnot. tauto. }
        exfalso. rewrite lookup_app_r in Hk by lia.
        destruct (k - length l) as [|j]; simpl in Hk; [|by destruct j].
        congruence.
Qed.

Lemma dict_set_keys {K V : Type} `{EqDecision K} (d : list (K * V)) (k k' : K) (v : V) :
  k' ∈ (dict_set d k v).*1 ↔ k' = k ∨ k' ∈ d.*1.
Proof.
  induction d as [|[k0 v0] d IH]; simpl.
  - rewrite list_elem_of_singleton, elem_of_nil. tauto.
  - destruct (decide (k = k0)) as [->|Hne]; simpl; rewrite !elem_of_cons.
    + tauto.
    + rewrite IH. tauto.
Qed.

Lemma dict_set_NoDup {K V : Type} `{EqDecision K} (d : list (K * V)) (k : K) (v : V) :
  NoDup d.*1 → NoDup (dict_set d k v).*1.
Proof.
  induction d as [|[k0 v0] d IH]; simpl; intros Hnd.
  - apply NoDup_singleton.
  - apply NoDup_cons in Hnd as [Hk0 Hnd].
    destruct (decide (k = k0)) as [->|Hne]; simpl.
    + by apply NoDup_cons.
    + apply NoDup_cons. split; [|by apply IH].
      rewrite dict_set_keys. intros [?|?]; [congruence|contradiction].
Qed.

Lemma build_stoi_NoDup (vocab : list string) :
  NoDup (LazyVectors.build_stoi vocab).*1.
Proof.
  induction vocab as [|x l IH] using rev_ind; [apply NoDup_nil_2|].
  rewrite build_stoi_snoc. by apply dict_set_NoDup.
Qed.

Lemma dict_get_elem {K V : Type} `{EqDecision K} (d : list (K * V)) (k : K) (v : V) :
  NoDup d.*1 → (k, v) ∈ d ↔ dict_get d k = Some v.
Proof.
  intros Hnd. split; [|apply dict_get_Some_elem].
  induction d as [|[k0 v0] d IH]; simpl; [by intros ?%elem_of_nil|].
  apply NoDup_cons in Hnd as [Hk0 Hnd].
  rewrite elem_of_cons. intros [[= -> ->]|Hin].
  - by rewrite decide_True.
  - destruct (decide (k = k0)) as [->|_]; [|by apply IH].
    exfalso. apply Hk0. apply list_elem_of_fmap. by exists (k0, v).
Qed.

(** The backward map built from a dictionary with distinct values is its
    converse. *)
Lemma build_itos_lookup (d : list (string * Z)) (i : Z) (s : string) :
  NoDup d.*2 →
  dict_get (LazyVectors.build_itos d) i = Some s ↔ (s, i) ∈ d.
Proof.
  unfold LazyVectors.build_itos.
  induction d as [|[s0 i0] d IH] using rev_ind; intros Hnd.
  - split; [discriminate | by intros ?%elem_of_nil].
  - rewrite fmap_app in Hnd. apply NoDup_app in Hnd as (Hnd & Hnot & _).
    rewrite foldl_snoc, dict_get_set, elem_of_app, list_elem_of_singleton.
    destruct (decide (i = i0)) as [->|Hne].
    + split.
      * intros [= ->]. by right.
      * intros [Hin|[= ->]]; [|reflexivity].
        exfalso. apply (Hnot i0).
        -- apply list_elem_of_fmap. by exists (s, i0).
        -- simpl. apply list_elem_of_here.
    + rewrite (IH Hnd). split; [tauto|]. intros [?|[= _ ?]]; [done|congruence].
Qed.

Lemma build_stoi_values_NoDup (vocab : list string) :
  NoDup (LazyVectors.build_stoi vocab).*2.
Proof.
  pose proof (build_stoi_NoDup vocab) as Hk.
  apply NoDup_fmap_2_strong; [|by eapply NoDup_fmap_1].
  intros [s i] [s' i'] H1 H2 Heq. simpl in Heq. subst i'.
  apply dict_get_elem in H1, H2; [|exact Hk..].
  apply build_stoi_lookup in H1 as (k & -> & H1 & _).
  apply build_stoi_lookup in H2 as (k' & Hk' & H2 & _).
  apply Nat2Z.inj in Hk'. subst k'. congruence.
Qed.

Lemma build_itos_build_stoi (vocab : list string) (s : string) (i : Z) :
  dict_get (LazyVectors.build_itos (LazyVectors.build_stoi vocab)) i = Some s ↔
  dict_get (LazyVectors.build_stoi vocab) s = Some i.
Proof.
  rewrite build_itos_lookup by apply build_stoi_values_NoDup.
  apply dict_get_elem, build_stoi_NoDup.
Qed.

(** X5.  The two dictionaries of [set_dicts] are converse to each other: the
    backward map holds [s] under [i] exactly when the forward map holds
    [i] under [s]. *)
Theorem set_dicts_converse (vocab : list string) (s : string) (i : Z) :
  dict_get (LazyVectors._itos (LazyVectors.set_dicts vocab)) i = Some s ↔
  dict_get (LazyVectors._stoi (LazyVectors.set_dicts vocab)) s = Some i.
Proof. apply build_itos_build_stoi. Qed.

(** X4.  The forward map of [set_dicts] holds, for each string of the
    vocabulary, the position of its last occurrence, counted from 0, and
    nothing else. *)
Theorem set_dicts_stoi_lookup (vocab : list string) (s : string) (i : Z) :
  dict_get (LazyVectors._stoi (LazyVectors.set_dicts vocab)) s = Some i ↔
  ∃ k, i = Z.of_nat k ∧ vocab !! k = Some s ∧ s ∉ drop (S k) vocab.
Proof. apply build_stoi_lookup. Qed.

(** X6.  [stoi] answers 1, or an index from 3 up to the size of the vocabulary
    plus 1: never the padding index 0, and never 2, the row of the first
    vocabulary token. *)
Theorem stoi_range (vocab : list string) (t : string) :
  let r := LazyVectors.stoi (LazyVectors.set_dicts vocab) t in
  r = 1%Z ∨ (3 ≤ r < Z.of_nat (length vocab) + 2)%Z.
Proof.
  unfold LazyVectors.stoi. cbn zeta.
  destruct (dict_get _ t) as [i|] eqn:Hget; [|by left].
  apply build_stoi_lookup in Hget as (k & -> & Hk & _).
  apply lookup_lt_Some in Hk. simpl.
  destruct (Z.eqb_spec (Z.of_nat k) 0); [by left|right]. simpl. lia.
Qed.

(** X7.  Apart from the answer 1, [stoi] tells tokens apart. *)
Theorem stoi_injective (vocab : list string) (a b : string) :
  LazyVectors.stoi (LazyVectors.set_dicts vocab) a ≠ 1%Z →
  LazyVectors.stoi (LazyVectors.set_dicts vocab) a =
    LazyVectors.stoi (LazyVectors.set_dicts vocab) b →
  a = b.
Proof.
  unfold LazyVectors.stoi. cbn zeta.
  destruct (dict_get _ a) as [i|] eqn:Ha; [|by intros []].
  destruct (dict_get _ b) as [j|] eqn:Hb.
  - apply build_stoi_lookup in Ha as (k & -> & Ha & _).
    apply build_stoi_lookup in Hb as (k' & -> & Hb & _).
    simpl. destruct (Z.eqb_spec (Z.of_nat k) 0); [by intros []|].
    destruct (Z.eqb_spec (Z.of_nat k') 0); simpl.
    + intros H1 H2. by rewrite H2 in H1.
    + intros _ Heq. assert (k = k') as -> by lia. congruence.
  - simpl. intros H1 H2. by rewrite H2 in H1.
Qed.

Lemma stoi_injective_witness :
  LazyVectors.stoi (LazyVectors.set_dicts ["the"; "cat"; "sat"]) "cat" = 3%Z ∧
  "cat" = "cat".
Proof.
  split; [reflexivity|].
  apply (stoi_injective ["the"; "cat"; "sat"] "cat" "cat").
  - vm_compute. discriminate.
  - reflexivity.
Defined.

(** X8.  With the shift taken off again the lookups do round-trip: for a token
    that [stoi] does not send to 1, and that is not the empty string,
    [itos(stoi(t) - 2)] is [t]. *)
Theorem itos_stoi_minus_two (vocab : list string) (t : string) :
  LazyVectors.stoi (LazyVectors.set_dicts vocab) t ≠ 1%Z →
  t ≠ "" →
  LazyVectors.itos (LazyVectors.set_dicts vocab)
    (LazyVectors.stoi (LazyVectors.set_dicts vocab) t - 2) = t.
Proof.
  intros Hne Ht. unfold LazyVectors.stoi in *. cbn zeta in *.
  destruct (dict_get (LazyVectors._stoi _) t) as [i|] eqn:Hget; [|by destruct Hne].
  simpl in *. destruct (Z.eqb_spec i 0); [by destruct Hne|]. simpl.
  replace (i + 2 - 2)%Z with i by lia.
  apply build_itos_build_stoi in Hget.
  unfold LazyVectors.itos, LazyVectors.set_dicts. cbn [LazyVectors._itos].
  rewrite Hget. simpl.
  destruct (String.eqb_spec t ""); [contradiction | reflexivity].
Qed.

Lemma itos_stoi_minus_two_witness :
  LazyVectors.itos (LazyVectors.set_dicts ["the"; "cat"; "sat"])
    (LazyVectors.stoi (LazyVectors.set_dicts ["the"; "cat"; "sat"]) "cat" - 2)
  = "cat".
Proof.
  apply itos_stoi_minus_two.
  - vm_compute. discriminate.
  - discriminate.
Defined.

(** X9.  [set_vocab] keeps the tokens the pretrained vectors know, in their
    order, cut to [skim] of them: a token the vectors do not know gets the
    unknown index whatever the corpus holds, and a [skim] that is not
    negative bounds the size of the working vocabulary. *)
Theorem set_vocab_working_vocabulary (in_loader : string → bool)
    (skim : option Z) (vocab : list string) (t : string) :
  let self := LazyVectors.set_vocab in_loader skim vocab in
  (in_loader t = false → LazyVectors.stoi self t = 1%Z) ∧
  (t ∉ vocab → LazyVectors.stoi self t = 1%Z) ∧
  (∀ k, skim = Some k → (0 ≤ k)%Z →
        (Z.of_nat (length (LazyVectors.vocab self)) ≤ k)%Z).
Proof.
  cbn zeta. unfold LazyVectors.set_vocab.
  assert (Hsub : ∀ x, x ∈ LazyVectors.take_skim skim
                            (filter (λ v, in_loader v = true) vocab) →
                      in_loader x = true ∧ x ∈ vocab).
  { intros x Hx. apply (list_elem_of_filter (λ v, in_loader v = true) vocab x).
    unfold LazyVectors.take_skim in Hx.
    destruct skim as [k|]; [|exact Hx].
    destruct (decide (k < 0)%Z);
      apply elem_of_take in Hx as (j & Hj & _);
      by eapply list_elem_of_lookup_2. }
  split; [|split].
  - intros Hout. apply stoi_absent. intros Hin. apply Hsub in Hin as [Hin _]. congruence.
  - intros Hout. apply stoi_absent. intros Hin. by apply Hsub in Hin as [_ Hin].
  - intros k -> Hk. simpl. rewrite decide_False by lia.
    rewrite length_take. lia.
Qed.

Lemma set_vocab_working_vocabulary_witness :
  LazyVectors.stoi
    (LazyVectors.set_vocab (λ v, bool_decide (v ≠ "zzz")) (Some 2%Z)
       ["the"; "zzz"; "cat"; "sat"]) "zzz" = 1%Z ∧
  (Z.of_nat (length (LazyVectors.vocab
     (LazyVectors.set_vocab (λ v, bool_decide (v ≠ "zzz")) (Some 2%Z)
        ["the"; "zzz"; "cat"; "sat"]))) ≤ 2)%Z.
Proof.
  pose proof (set_vocab_working_vocabulary (λ v, bool_decide (v ≠ "zzz"))
                (Some 2%Z) ["the"; "zzz"; "cat"; "sat"] "zzz") as (H1 & _ & H3).
  split.
  - apply H1. reflexivity.
  - apply (H3 2%Z); [reflexivity | lia].
Defined.

(** ** [Document.truncate], continued *)

(** The positions [sentence_ends] lists are positions of sentence-ending
    tokens, below the number of tokens, in increasing order. *)
Lemma sentence_ends_from (m : nat) (toks : list string) :
  let s := (λ p : Z * string, Z.to_nat p.1) <$>
             filter (λ p, Str.mem p.2 ["."; "?"; "!"] = true)
               (enumerate_from (Z.of_nat m) toks) in
  (∀ x, x ∈ s → ∃ j t, x = m + j ∧ toks !! j = Some t ∧ t ∈ ["."; "?"; "!"]) ∧
  (∀ j k a b, j < k → s !! j = Some a → s !! k = Some b → a < b).
Proof.
  revert m. induction toks as [|t toks IH]; intros m; cbn zeta.
  - split; [by intros x ?%elem_of_nil | by intros j k a b _ ?].
  - cbn [enumerate_from]. rewrite filter_cons.
    replace (Z.of_nat m + 1)%Z with (Z.of_nat (S m)) by lia.
    destruct (IH (S m)) as [IHin IHsort].
    assert (Hin' : ∀ x,
              x ∈ (λ p : Z * string, Z.to_nat p.1) <$>
                    filter (λ p, Str.mem p.2 ["."; "?"; "!"] = true)
                      (enumerate_from (Z.of_nat (S m)) toks) →
              ∃ j t', x = m + j ∧ (t :: toks) !! j = Some t' ∧ t' ∈ ["."; "?"; "!"]).
    { intros x Hx. destruct (IHin x Hx) as (j & t' & -> & Hj & Ht').
      exists (S j), t'. split; [lia|]. by split. }
    destruct (decide (Str.mem (Z.of_nat m, t).2 ["."; "?"; "!"] = true)) as [Hm|_].
    + rewrite fmap_cons. cbn [fst]. rewrite Nat2Z.id. split.
      * intros x [->|Hx]%elem_of_cons; [|by apply Hin'].
        exists 0, t. split; [lia|]. split; [reflexivity|].
        by apply bool_decide_eq_true_1 in Hm.
      * intros j k a b Hjk Ha Hb. destruct k as [|k]; [lia|]. simpl in Hb.
        destruct j as [|j]; simpl in Ha.
        -- injection Ha as <-.
           destruct (IHin b) as (j' & _ & -> & _); [by eapply list_elem_of_lookup_2|].
           lia.
        -- apply (IHsort j k); [lia | done | done].
    + split; [exact Hin' | exact IHsort].
Qed.

Lemma sentence_ends_spec (toks : list string) :
  (∀ x, x ∈ sentence_ends toks →
        x < length toks ∧ ∃ t, toks !! x = Some t ∧ t ∈ ["."; "?"; "!"]) ∧
  (∀ j d a b, sentence_ends toks !! j = Some a →
              sentence_ends toks !! (j + d) = Some b → a + d ≤ b).
Proof.
  destruct (sentence_ends_from 0 toks) as [Hin Hsort]. fold (sentence_ends toks) in *.
  split.
  - intros x Hx. destruct (Hin x Hx) as (j & t & -> & Hj & Ht). simpl.
    split; [by eapply lookup_lt_Some | by exists t].
  - intros j d. induction d as [|d IH]; intros a b Ha Hb.
    + rewrite Nat.add_0_r in Hb. assert (a = b) by congruence. lia.
    + destruct (lookup_lt_is_Some_2 (sentence_ends toks) (j + d)) as [c Hc].
      { apply lookup_lt_Some in Hb. lia. }
      pose proof (IH a c Ha Hc).
      pose proof (Hsort (j + d) (j + S d) c b ltac:(lia) Hc Hb). lia.
Qed.

(** X10.  With [MAX] at 50 or more, the default included, [truncate] raises
    nothing.  When it builds a new document, that document starts with a
    sentence-ending token, has at least fifty tokens and fewer than
    [self], and carries the mentions, the speakers and the genre of
    [self] unchanged: its speakers outnumber its tokens whenever those of
    [self] matched them. *)
Theorem truncate_from_fifty (self : Document) (MAX : Z) (seed : nat) :
  (50 ≤ MAX)%Z →
  truncate self MAX seed = Ok Self ∨
  ∃ d, truncate self MAX seed = Ok (New d) ∧
       (∃ t, head (tokens d) = Some t ∧ t ∈ ["."; "?"; "!"]) ∧
       50 ≤ length (tokens d) < length (tokens self) ∧
       corefs d = corefs self ∧ speakers d = speakers self ∧
       genre d = genre self.
Proof.
  intros H50. unfold truncate. cbv zeta.
  set (sentences := sentence_ends (tokens self)).
  destruct (decide (MAX < Z.of_nat (length sentences))%Z) as [Hlt|_]; [right|by left].
  pose proof (random_sample_range_bounds MAX _ seed Hlt) as Hi.
  set (i := random_sample_range MAX (Z.of_nat (length sentences)) seed) in *.
  destruct (py_index_in_range sentences (i - 50)) as (a & Ha & ->); [lia|].
  destruct (py_index_in_range sentences i) as (b & Hb & ->); [lia|].
  cbn [bind]. eexists. split; [reflexivity|]. cbn.
  destruct (sentence_ends_spec (tokens self)) as [Hin Hgap].
  fold sentences in Hin, Hgap.
  destruct (Hin a) as (Halt & t & Hta & Ht); [by eapply list_elem_of_lookup_2|].
  destruct (Hin b) as (Hblt & _); [by eapply list_elem_of_lookup_2|].
  assert (Hab : a + 50 ≤ b).
  { apply (Hgap (Z.to_nat (i - 50)) 50 a b Ha).
    replace (Z.to_nat (i - 50) + 50) with (Z.to_nat i) by lia. exact Hb. }
  split; [|split; [|by repeat split]].
  - exists t. split; [|exact Ht]. unfold py_slice.
    rewrite (drop_S _ t a Hta). destruct (b - a) as [|n] eqn:Hn; [lia|]. reflexivity.
  - unfold py_slice. rewrite length_take, length_drop. lia.
Qed.

Lemma truncate_from_fifty_witness :
  truncate fifty_one_sentences 50 0 = Ok Self ∨
  ∃ d, truncate fifty_one_sentences 50 0 = Ok (New d) ∧
       (∃ t, head (tokens d) = Some t ∧ t ∈ ["."; "?"; "!"]) ∧
       50 ≤ length (tokens d) < length (tokens fifty_one_sentences) ∧
       corefs d = corefs fifty_one_sentences ∧
       speakers d = speakers fifty_one_sentences ∧
       genre d = genre fifty_one_sentences.
Proof. apply truncate_from_fifty. lia. Defined.

(** ** [Document.__getitem__] *)

Lemma py_index_range {A : Type} (l : list A) (i : Z) :
  ((- Z.of_nat (length l) ≤ i < Z.of_nat (length l))%Z ∧ ∃ x, py_index l i = Ok x) ∨
  (¬ (- Z.of_nat (length l) ≤ i < Z.of_nat (length l))%Z ∧
   py_index l i = Raise IndexError).
Proof.
  unfold py_index. cbv zeta.
  destruct (decide (i < 0)%Z) as [Hneg|Hpos].
  - destruct (decide (i + Z.of_nat (length l) < 0)%Z) as [?|?].
    + right. split; [lia | reflexivity].
    + destruct (l !! Z.to_nat (i + Z.of_nat (length l))) as [x|] eqn:Hx.
      * left. split; [lia | by exists x].
      * apply lookup_ge_None in Hx. lia.
  - destruct (decide (i < 0)%Z) as [?|_]; [lia|].
    destruct (l !! Z.to_nat i) as [x|] eqn:Hx.
    + apply lookup_lt_Some in Hx. left. split; [lia | by exists x].
    + apply lookup_ge_None in Hx. right. split; [lia | reflexivity].
Qed.

(** X11.  [doc[idx]] reads three lists at the same index: it returns exactly
    when [idx], negative or not, is in range for the shortest of tokens,
    mentions and speakers, and raises [IndexError] otherwise.  A document
    with fewer mentions than tokens cannot be read at its later tokens. *)
Theorem Document_getitem_range (self : Document) (idx : Z) :
  let m := Z.of_nat (Nat.min (length (tokens self))
                       (Nat.min (length (corefs self)) (length (speakers self)))) in
  ((- m ≤ idx < m)%Z → ∃ r, Document_getitem self idx = Ok r) ∧
  (¬ (- m ≤ idx < m)%Z → Document_getitem self idx = Raise IndexError).
Proof.
  cbv zeta. unfold Document_getitem.
  destruct (py_index_range (tokens self) idx) as [[Ht [t ->]]|[Ht ->]];
    destruct (py_index_range (corefs self) idx) as [[Hc [c ->]]|[Hc ->]];
    destruct (py_index_range (speakers self) idx) as [[Hs [s ->]]|[Hs ->]];
    cbn [bind]; (split; [intros H; try lia; by eexists | intros H; try lia; reflexivity]).
Qed.

Lemma Document_getitem_range_witness :
  (∃ r, Document_getitem
          (mkDocument ["John"; "left"] [mkCoref "1" 0 (Some 0) None] ["A"; "A"] "bc")
          0 = Ok r) ∧
  Document_getitem
    (mkDocument ["John"; "left"] [mkCoref "1" 0 (Some 0) None] ["A"; "A"] "bc")
    1 = Raise IndexError.
Proof.
  pose proof (Document_getitem_range
    (mkDocument ["John"; "left"] [mkCoref "1" 0 (Some 0) None] ["A"; "A"] "bc")) as H.
  split.
  - apply (H 0%Z). simpl. lia.
  - apply (H 1%Z). simpl. lia.
Defined.

(** ** [Corpus] *)

Lemma get_vocab_fold (documents : list Document) (v0 : gset string)
    (c0 : gset ascii) (t : string) (c : ascii) :
  let r := foldl
    (λ '(vocab, char_vocab) document,
       (vocab ∪ list_to_set (tokens document),
        char_vocab ∪
          list_to_set (word ← tokens document; list_ascii_of_string word)))
    (v0, c0) documents in
  (t ∈ r.1 ↔ t ∈ v0 ∨ ∃ d, d ∈ documents ∧ t ∈ tokens d) ∧
  (c ∈ r.2 ↔ c ∈ c0 ∨ ∃ d word, d ∈ documents ∧ word ∈ tokens d ∧
                                   c ∈ list_ascii_of_string word).
Proof.
  revert v0 c0. induction documents as [|d ds IH]; intros v0 c0; cbn zeta.
  - simpl. split; split; try tauto.
    + intros [?|(d & ?%elem_of_nil & _)]; done.
    + intros [?|(d & w & ?%elem_of_nil & _)]; done.
  - cbn [foldl]. destruct (IH (v0 ∪ list_to_set (tokens d))
       (c0 ∪ list_to_set (word ← tokens d; list_ascii_of_string word))) as [IH1 IH2].
    cbn zeta in IH1, IH2. rewrite IH1, IH2. clear IH IH1 IH2.
    rewrite !elem_of_union, !elem_of_list_to_set, list_elem_of_bind.
    split; split.
    + intros [[?|?]|(d' & Hd' & Ht)]; [by left | right; exists d | right; exists d'];
        (split; [|done]); rewrite elem_of_cons; tauto.
    + intros [?|(d' & [->|Hd']%elem_of_cons & Ht)]; [tauto | tauto |].
      right. by exists d'.
    + intros [[?|(w & Hc & Hw)]|(d' & w & Hd' & Hw & Hc)];
        [by left | right; exists d, w | right; exists d', w];
        (split; [|done]); rewrite elem_of_cons; tauto.
    + intros [?|(d' & w & [->|Hd']%elem_of_cons & Hw & Hc)]; [tauto | |].
      * left. right. by exists w.
      * right. by exists d', w.
Qed.

(** X12.  The vocabulary of a corpus holds the tokens of its documents and
    nothing else, and its character vocabulary the characters of these
    tokens and nothing else. *)
Theorem Corpus_vocab_spec (documents : list Document) (t : string) (c : ascii) :
  (t ∈ Corpus.vocab (Corpus.init documents) ↔
     ∃ d, d ∈ documents ∧ t ∈ tokens d) ∧
  (c ∈ Corpus.char_vocab (Corpus.init documents) ↔
     ∃ d word, d ∈ documents ∧ word ∈ tokens d ∧ c ∈ list_ascii_of_string word).
Proof.
  unfold Corpus.init, Corpus.get_vocab.
  pose proof (get_vocab_fold documents ∅ ∅ t c) as H. cbn zeta in H.
  destruct (foldl _ (∅, ∅) documents) as [v cv]. simpl in *.
  destruct H as [H1 H2]. rewrite H1, H2. split; split; try tauto.
  - intros [?%elem_of_empty|?]; done.
  - intros [?%elem_of_empty|?]; done.
Qed.

(** ** The close-marker scan, in full *)



(** A close marker sets the end of one mention and touches nothing
    else. *)
Lemma close_marker_effect (corefs corefs' : list Coref) (lbl : string)
    (index : nat) (i i' : option nat) :
  close_marker corefs lbl index i = Ok (corefs', i') →
  ∃ k m, corefs !! k = Some m ∧ corefs' = <[k := set_end index m]> corefs.
Proof.
  unfold close_marker.
  destruct (scan corefs lbl _ i) as [k|]; [|discriminate].
  destruct (corefs !! k) as [m|] eqn:Hk; [|discriminate].
  intros [= <- _]. by exists k, m.
Qed.

(** ** [load_file]: whole files *)

Lemma split_length (sep : ascii) (s : string) :
  length (Str.split sep s) = S (count_char sep s).
Proof.
  induction s as [|c s IH]; [reflexivity|]. simpl.
  destruct (decide (c = sep)) as [_|_]; simpl; [by rewrite IH|].
  destruct (Str.split sep s) as [|w ws]; [discriminate IH | exact IH].
Qed.

(** X14.  The genre is the seventh segment of the path: a path with fewer than
    six separators makes [load_file] raise [IndexError], whatever the
    file holds. *)
Theorem load_file_short_path (fix_coref_spans : Document → Document)
    (filename : string) (lines : list string) :
  count_char "/" filename < 6 →
  load_file fix_coref_spans filename lines = Raise IndexError.
Proof.
  intros H. unfold load_file.
  change 6%Z with (Z.of_nat 6). rewrite py_index_nat.
  rewrite (proj2 (lookup_ge_None (Str.split "/" filename) 6)); [reflexivity|].
  rewrite split_length. lia.
Qed.

Lemma load_file_short_path_witness :
  load_file fill_spans "../data/train/cctv_0000.gold_conll" [] = Raise IndexError.
Proof. apply load_file_short_path. vm_compute. lia. Defined.

Section loader_runs.

Variable fix_coref_spans : Document → Document.
Variable genre_of_file : string.

Lemma end_utterance_cases (st st' : locals) :
  end_utterance st = Ok st' →
  (v_text st = [] ∧ st' = st) ∨
  (v_text st ≠ [] ∧ ∃ speaker,
     v_speaker st = Some speaker ∧
     st' = {| v_documents := v_documents st;
              v_tokens := v_tokens st ++ v_text st;
              v_text := [];
              v_utts_corefs := v_utts_corefs st ++ v_corefs st;
              v_utts_speakers :=
                v_utts_speakers st ++ replicate (length (v_text st)) speaker;
              v_corefs := [];
              v_index := v_index st;
              v_speaker := v_speaker st;
              v_i := v_i st |}).
Proof.
  unfold end_utterance. destruct (v_text st) as [|w ws] eqn:Htext.
  - intros [= <-]. by left.
  - destruct (v_speaker st) as [speaker|]; [|discriminate].
    intros [= <-]. right. split; [discriminate|]. by exists speaker.
Qed.

(** Only a two-field line adds a document, and it adds one. *)
Lemma step_documents (st st' : locals) (cols : list string) :
  step fix_coref_spans genre_of_file st cols = Ok st' →
  v_documents st' =
    v_documents st ++
      (if decide (length cols = 2)
       then [fix_coref_spans
               (mkDocument (v_tokens st) (v_utts_corefs st) (v_utts_speakers st)
                  genre_of_file)]
       else []).
Proof.
  unfold step. destruct (decide (length cols = 0)) as [H0|H0].
  - rewrite decide_False by lia. rewrite app_nil_r.
    intros [[_ ->]|[_ (speaker & _ & ->)]]%end_utterance_cases; reflexivity.
  - destruct (decide (length cols = 2)) as [_|_].
    + rewrite end_document_effect. by intros [= <-].
    + rewrite app_nil_r. destruct (decide (7 < length cols)) as [_|_].
      * by intros (-> & _)%token_record_effect.
      * by intros [= <-].
Qed.

Lemma run_documents_length (lines : list (list string)) (st st' : locals) :
  run fix_coref_spans genre_of_file st lines = Ok st' →
  length (v_documents st') = length (v_documents st) + count_boundaries lines.
Proof.
  revert st. induction lines as [|cols rest IH]; intros st.
  - intros [= <-]. unfold count_boundaries. simpl. lia.
  - cbn [run]. intros (st1 & Hstep & Hrun)%bind_Ok.
    rewrite (IH st1 Hrun), (step_documents _ _ _ Hstep), length_app.
    unfold count_boundaries. rewrite filter_cons.
    destruct (decide (length cols = 2)); simpl; lia.
Qed.

(** X15.  A file yields one document per two-field line, whatever else it
    holds. *)
Theorem load_cols_one_document_per_boundary (lines : list (list string))
    (documents : list Document) :
  load_cols fix_coref_spans genre_of_file lines = Ok documents →
  length documents = count_boundaries lines.
Proof.
  unfold load_cols. intros (st & Hrun & [= <-])%bind_Ok.
  by rewrite (run_documents_length _ _ _ Hrun).
Qed.

Lemma run_no_boundary (tail : list (list string)) (st st' : locals) :
  Forall (λ cols, length cols ≠ 2) tail →
  run fix_coref_spans genre_of_file st tail = Ok st' →
  v_documents st' = v_documents st.
Proof.
  intros Hall. revert st. induction Hall as [|cols rest Hcols _ IH]; intros st.
  - by intros [= <-].
  - cbn [run]. intros (st1 & Hstep & Hrun)%bind_Ok.
    rewrite (IH st1 Hrun), (step_documents _ _ _ Hstep).
    rewrite decide_False by exact Hcols. apply app_nil_r.
Qed.

(** X16.  What follows the last two-field line of a file is read and thrown
    away: if the file loads, it loads to the documents of its part up to
    that line. *)
Theorem load_cols_tail_dropped (lines tail : list (list string))
    (documents : list Document) :
  Forall (λ cols, length cols ≠ 2) tail →
  load_cols fix_coref_spans genre_of_file (lines ++ tail) = Ok documents →
  load_cols fix_coref_spans genre_of_file lines = Ok documents.
Proof.
  unfold load_cols. intros Hall (st & Hrun & [= <-])%bind_Ok.
  rewrite run_app in Hrun. apply bind_Ok in Hrun as (st1 & -> & Htail).
  cbn [bind]. by rewrite (run_no_boundary _ _ _ Hall Htail).
Qed.

(** X17.  A line with one column, or with three to seven, changes nothing:
    the file loads as it does without the line. *)
Theorem load_cols_ignored_line (l1 l2 : list (list string)) (cols : list string) :
  ignored_line cols →
  load_cols fix_coref_spans genre_of_file (l1 ++ cols :: l2) =
  load_cols fix_coref_spans genre_of_file (l1 ++ l2).
Proof.
  intros (H0 & H2 & H7). unfold load_cols. rewrite !run_app.
  destruct (run fix_coref_spans genre_of_file init_locals l1) as [st|e];
    [|reflexivity].
  cbn [bind run]. unfold step.
  rewrite decide_False by exact H0. rewrite decide_False by exact H2.
  by rewrite decide_False by lia.
Qed.

(** X18.  A blank line right after a blank line changes nothing. *)
Theorem load_cols_blank_twice (l1 l2 : list (list string)) :
  load_cols fix_coref_spans genre_of_file (l1 ++ [] :: [] :: l2) =
  load_cols fix_coref_spans genre_of_file (l1 ++ [] :: l2).
Proof.
  unfold load_cols. rewrite !run_app.
  destruct (run fix_coref_spans genre_of_file init_locals l1) as [st|e];
    [|reflexivity].
  cbn [bind run].
  destruct (step fix_coref_spans genre_of_file st []) as [st1|e] eqn:Hstep;
    [|reflexivity].
  cbn [bind].
  assert (Htext : v_text st1 = []).
  { unfold step in Hstep. rewrite decide_True in Hstep by reflexivity.
    apply end_utterance_cases in Hstep as [[Ht ->]|[_ (speaker & _ & ->)]]; done. }
  assert (Hagain : step fix_coref_spans genre_of_file st1 [] = Ok st1).
  { unfold step. rewrite decide_True by reflexivity.
    unfold end_utterance. by rewrite Htext. }
  by rewrite Hagain.
Qed.

(** A line that raises in every state makes every file that holds it
    raise. *)
Lemma run_raising_line (l1 l2 : list (list string)) (cols : list string)
    (st : locals) :
  (∀ st1, ∃ e, step fix_coref_spans genre_of_file st1 cols = Raise e) →
  ∃ e, run fix_coref_spans genre_of_file st (l1 ++ cols :: l2) = Raise e.
Proof.
  intros Hcols. rewrite run_app.
  destruct (run fix_coref_spans genre_of_file st l1) as [st1|e]; [|by exists e].
  cbn [bind run]. destruct (Hcols st1) as [e ->]. by exists e.
Qed.

(** X19.  A token record of eight or nine columns has no speaker column: a
    file that holds one does not load, and where the lines before it are
    read without exception the exception is [IndexError]. *)
Theorem load_cols_short_record (l1 l2 : list (list string)) (cols : list string) :
  7 < length cols < 10 →
  (∃ e, load_cols fix_coref_spans genre_of_file (l1 ++ cols :: l2) = Raise e) ∧
  (∀ st, run fix_coref_spans genre_of_file init_locals l1 = Ok st →
         load_cols fix_coref_spans genre_of_file (l1 ++ cols :: l2) =
           Raise IndexError).
Proof.
  intros Hlen.
  assert (Hstep : ∀ st, step fix_coref_spans genre_of_file st cols = Raise IndexError).
  { intros st. rewrite step_token_record by lia. unfold token_record.
    change 3%Z with (Z.of_nat 3). change 9%Z with (Z.of_nat 9).
    rewrite !py_index_nat.
    destruct (lookup_lt_is_Some_2 cols 3) as [tok ->]; [lia|]. cbn [bind].
    by rewrite (proj2 (lookup_ge_None cols 9)) by lia. }
  unfold load_cols. split.
  - destruct (run_raising_line l1 l2 cols init_locals) as [e ->]; [|by exists e].
    intros st. exists IndexError. apply Hstep.
  - intros st Hrun. rewrite run_app, Hrun. cbn [bind run]. by rewrite Hstep.
Qed.

Lemma coref_tokens_outside_grammar (index : nat) (coref_expr : list string)
    (acc : list Coref * option nat) :
  Exists (λ token, re_match_coref token = None) coref_expr →
  ∃ e, coref_tokens index acc coref_expr = Raise e.
Proof.
  intros Hex. revert acc. induction Hex as [token rest Htok|token rest _ IH]; intros acc.
  - cbn [coref_tokens]. unfold coref_token. destruct acc as [corefs i].
    rewrite Htok. by exists AttributeError.
  - cbn [coref_tokens]. destruct (coref_token index acc token) as [acc'|e];
      [apply IH | by exists e].
Qed.

(** X20.  A token record whose coreference column is not ['-'] and holds a
    label token of ASCII characters outside the grammar [(?digits)?]
    stops the load: a file that holds one does not load. *)
Theorem load_cols_label_outside_grammar (l1 l2 : list (list string))
    (cols : list string) :
  7 < length cols →
  last_col cols ≠ "-" →
  Exists (λ token, ascii_only token ∧ re_match_coref token = None)
    (Str.split "|" (last_col cols)) →
  ∃ e, load_cols fix_coref_spans genre_of_file (l1 ++ cols :: l2) = Raise e.
Proof.
  intros Hlen Hcol Hex. unfold load_cols.
  apply (Exists_impl _ (λ token, re_match_coref token = None)) in Hex;
    [|by intros token [_ ?]].
  destruct (run_raising_line l1 l2 cols init_locals) as [e ->]; [|by exists e].
  intros st. rewrite step_token_record by exact Hlen. unfold token_record.
  destruct (py_index cols 3) as [tok|e]; [|by exists e]. cbn [bind].
  destruct (py_index cols 9) as [speaker|e]; [|by exists e]. cbn [bind].
  rewrite decide_True by exact Hcol.
  destruct (coref_tokens_outside_grammar (v_index st) _ (v_corefs st, v_i st) Hex)
    as [e ->].
  by exists e.
Qed.

End loader_runs.

Lemma load_cols_tail_dropped_witness :
  load_cols fill_spans "bc"
    [record "John" "A" "(1)"; []; end_document_line] =
  Ok [mkDocument ["John"] [mkCoref "1" 0 (Some 0) (Some [0])] ["A"] "bc"].
Proof.
  apply (load_cols_tail_dropped fill_spans "bc"
           [record "John" "A" "(1)"; []; end_document_line]
           [record "left" "A" "-"; []]).
  - repeat constructor; simpl; lia.
  - vm_compute. reflexivity.
Defined.

Lemma load_cols_one_document_per_boundary_witness :
  length [mkDocument ["John"] [mkCoref "1" 0 (Some 0) (Some [0])] ["A"] "bc"] =
  count_boundaries [record "John" "A" "(1)"; []; end_document_line].
Proof.
  apply (load_cols_one_document_per_boundary fill_spans "bc").
  vm_compute. reflexivity.
Defined.

Lemma load_cols_ignored_line_witness :
  load_cols fill_spans "bc"
    ([] ++ ["#begin"; "document"; "(bc/cctv/00/cctv_0000);"; "part"; "000"] ::
       [record "John" "A" "(1)"; []; end_document_line]) =
  load_cols fill_spans "bc" ([] ++ [record "John" "A" "(1)"; []; end_document_line]).
Proof.
  apply load_cols_ignored_line. unfold ignored_line. simpl. lia.
Defined.

Lemma load_cols_short_record_witness :
  ∃ e, load_cols fill_spans "bc"
         ([] ++ ["bc/cctv/00/cctv_0000"; "0"; "0"; "John"; "NN"; "*"; "-"; "-"; "A"] ::
            [[]; end_document_line]) = Raise e.
Proof.
  apply (load_cols_short_record fill_spans "bc" []). simpl. lia.
Defined.

Lemma load_cols_label_outside_grammar_witness :
  ∃ e, load_cols fill_spans "bc"
         ([] ++ record "John" "A" "(1|x)" :: [[]; end_document_line]) = Raise e.
Proof.
  apply (load_cols_label_outside_grammar fill_spans "bc" []).
  - simpl. lia.
  - discriminate.
  - vm_compute. apply Exists_cons_tl, Exists_cons_hd.
    split; [|reflexivity]. unfold ascii_only. vm_compute. repeat constructor.
Defined.

(** ** [load_file]: what every returned document satisfies *)

Section loader_invariants.

Variable fix_coref_spans : Document → Document.
Variable genre_of_file : string.

Lemma step_counted (st st' : locals) (cols : list string) :
  step fix_coref_spans genre_of_file st cols = Ok st' →
  locals_counted st → locals_counted st'.
Proof.
  unfold step. intros Hstep (Hlen & Htok & Htext & Hidx).
  destruct (decide (length cols = 0)) as [_|_].
  - apply end_utterance_cases in Hstep as [[_ ->]|[_ (speaker & _ & ->)]];
      [done|].
    unfold locals_counted. cbn -[length replicate].
    rewrite !length_app, length_replicate, Hlen.
    split; [reflexivity|]. split; [by apply Forall_app|].
    split; [constructor|]. simpl. lia.
  - destruct (decide (length cols = 2)) as [_|_].
    + rewrite end_document_effect in Hstep. injection Hstep as <-.
      unfold locals_counted. cbn. by repeat split.
    + destruct (decide (7 < length cols)) as [_|_]; [|by injection Hstep as <-].
      apply token_record_effect in Hstep as (_ & Ht & _ & Hs & Hx & _ & Hi).
      unfold locals_counted. rewrite Ht, Hs, Hx, Hi, length_app.
      split; [exact Hlen|]. split; [exact Htok|]. split; [|simpl; lia].
      apply Forall_app. split; [exact Htext|].
      constructor; [apply clean_token_nonempty | constructor].
Qed.

(** The documents of a run are [fix_coref_spans] of documents that carry
    the genre of the file, as many speakers as tokens and no empty
    token. *)
Lemma run_raw_documents (lines : list (list string)) (st st' : locals) :
  run fix_coref_spans genre_of_file st lines = Ok st' →
  locals_counted st →
  ∃ raws,
    v_documents st' = v_documents st ++ (fix_coref_spans <$> raws) ∧
    Forall (λ d, genre d = genre_of_file ∧
                 length (tokens d) = length (speakers d) ∧
                 Forall (λ t, t ≠ "") (tokens d)) raws.
Proof.
  revert st. induction lines as [|cols rest IH]; intros st.
  - intros [= <-] _. exists []. by rewrite app_nil_r.
  - cbn [run]. intros (st1 & Hstep & Hrun)%bind_Ok Hst.
    destruct (IH st1 Hrun (step_counted _ _ _ Hstep Hst)) as (raws & -> & Hraws).
    rewrite (step_documents _ _ _ _ _ Hstep).
    destruct (decide (length cols = 2)) as [_|_].
    + eexists (_ :: raws). rewrite <- app_assoc. split; [reflexivity|].
      constructor; [|exact Hraws]. destruct Hst as (Hlen & Htok & _). by repeat split.
    + exists raws. by rewrite app_nil_r.
Qed.

Lemma init_locals_counted : locals_counted init_locals.
Proof. unfold locals_counted, init_locals. cbn. by repeat split. Qed.

(** X21.  Every document of a file is built with the genre of the file. *)
Theorem load_cols_genre (lines : list (list string)) (documents : list Document) :
  load_cols fix_coref_spans genre_of_file lines = Ok documents →
  ∃ raws, documents = fix_coref_spans <$> raws ∧
          Forall (λ d, genre d = genre_of_file) raws.
Proof.
  unfold load_cols. intros (st & Hrun & [= <-])%bind_Ok.
  destruct (run_raw_documents _ _ _ Hrun init_locals_counted) as (raws & -> & Hraws).
  exists raws. split; [reflexivity|].
  eapply Forall_impl; [exact Hraws|]. by intros d (? & _).
Qed.

Hypothesis fix_ok : fills_spans_only fix_coref_spans.

(** X22.  Whatever the file, well-formed or not: if it loads, every document
    has as many speakers as tokens. *)
Theorem load_cols_speakers_match_tokens (lines : list (list string))
    (documents : list Document) :
  load_cols fix_coref_spans genre_of_file lines = Ok documents →
  Forall (λ d, length (tokens d) = length (speakers d)) documents.
Proof.
  unfold load_cols. intros (st & Hrun & [= <-])%bind_Ok.
  destruct (run_raw_documents _ _ _ Hrun init_locals_counted) as (raws & -> & Hraws).
  simpl. apply Forall_fmap. eapply Forall_impl; [exact Hraws|].
  intros d (_ & Hlen & _). simpl.
  destruct (fix_ok d) as (-> & -> & _). exact Hlen.
Qed.

(** X23.  No document of a loaded file holds an empty token. *)
Theorem load_cols_no_empty_token (lines : list (list string))
    (documents : list Document) :
  load_cols fix_coref_spans genre_of_file lines = Ok documents →
  Forall (λ d, Forall (λ t, t ≠ "") (tokens d)) documents.
Proof.
  unfold load_cols. intros (st & Hrun & [= <-])%bind_Ok.
  destruct (run_raw_documents _ _ _ Hrun init_locals_counted) as (raws & -> & Hraws).
  simpl. apply Forall_fmap. eapply Forall_impl; [exact Hraws|].
  intros d (_ & _ & Htok). simpl.
  destruct (fix_ok d) as (-> & _). exact Htok.
Qed.

Lemma mention_below_upto (n : nat) (m : Coref) :
  mention_below n m → mention_upto n m.
Proof.
  intros [Hs He]. split; [lia|]. intros e Hm. specialize (He e Hm). lia.
Qed.

Lemma mention_upto_below (n : nat) (m : Coref) :
  mention_upto n m → mention_below (n + 1) m.
Proof.
  intros [Hs He]. split; [lia|]. intros e Hm. specialize (He e Hm). lia.
Qed.

Lemma mention_below_mono (n n' : nat) (m : Coref) :
  n ≤ n' → mention_below n m → mention_below n' m.
Proof.
  intros Hle [Hs He]. split; [lia|]. intros e Hm. specialize (He e Hm). lia.
Qed.

Lemma coref_tokens_upto (index : nat) (coref_expr : list string)
    (acc acc' : list Coref * option nat) :
  coref_tokens index acc coref_expr = Ok acc' →
  Forall (mention_upto index) acc.1 → Forall (mention_upto index) acc'.1.
Proof.
  revert acc. induction coref_expr as [|token rest IH]; intros acc.
  - by intros [= <-].
  - cbn [coref_tokens]. intros (acc1 & Htok & Hrest)%bind_Ok Hacc.
    apply (IH acc1 Hrest). clear IH Hrest.
    unfold coref_token in Htok. destruct acc as [corefs i]. simpl in Hacc.
    destruct (re_match_coref token) as [[[g1 lbl] g3]|]; [|discriminate Htok].
    set (corefs1 := if decide (g1 = "(") then corefs ++ [open_mention lbl index]
                    else corefs) in *.
    assert (H1 : Forall (mention_upto index) corefs1).
    { subst corefs1. destruct (decide (g1 = "(")); [|exact Hacc].
      apply Forall_app. split; [exact Hacc|]. constructor; [|constructor].
      split; [simpl; lia | intros ? Hend; discriminate Hend]. }
    clearbody corefs1. destruct (decide (g3 = ")")) as [_|_];
      [|by injection Htok as <-].
    destruct acc1 as [corefs' i'].
    apply close_marker_effect in Htok as (k & m & Hk & ->). simpl.
    apply Forall_insert; [exact H1|].
    pose proof (Forall_lookup_1 _ _ _ _ H1 Hk) as [Hs _].
    split; [exact Hs|]. simpl in *. intros ? [= <-]. lia.
Qed.

Lemma fix_coref_spans_in_bounds (d : Document) :
  Forall (mention_below (length (tokens d))) (corefs d) →
  Forall (mention_below (length (tokens (fix_coref_spans d))))
    (corefs (fix_coref_spans d)).
Proof.
  destruct (fix_ok d) as (-> & _ & Hc). intros Hall.
  induction Hc as [|m' m l' l (_ & Hst & Hend) _ IH]; [constructor|].
  apply Forall_cons in Hall as [[Hs He] Hall].
  constructor; [|by apply IH].
  unfold mention_below. rewrite Hst, Hend. by split.
Qed.

Lemma run_in_bounds (lines : list (list string)) (waiting : bool)
    (st st' : locals) :
  flushed_from waiting lines = true →
  run fix_coref_spans genre_of_file st lines = Ok st' →
  locals_in_bounds waiting st →
  Forall (λ d, Forall (mention_below (length (tokens d))) (corefs d))
    (v_documents st').
Proof.
  revert waiting st. induction lines as [|cols rest IH]; intros waiting st.
  - intros _ [= <-] Hst. apply Hst.
  - cbn [flushed_from run]. intros Hfl (st1 & Hstep & Hrun)%bind_Ok Hst.
    pose proof Hst as (Hcor & Hutts & Hidle & Hbusy & Hidx & Hdocs).
    unfold step in Hstep.
    destruct (decide (length cols = 0)) as [_|_].
    { apply (IH false st1 Hfl Hrun).
      apply end_utterance_cases in Hstep as [[Htext ->]|[_ (speaker & _ & ->)]].
      - destruct waiting; [by destruct (Hbusy eq_refl)|]. exact Hst.
      - unfold locals_in_bounds. cbn -[length]. rewrite length_app.
        split; [constructor|]. split.
        { apply Forall_app. split.
          - eapply Forall_impl; [exact Hutts|].
            intros m. apply mention_below_mono. lia.
          - by rewrite <- Hidx. }
        split; [done|]. split; [discriminate|]. split; [simpl; lia | exact Hdocs]. }
    destruct (decide (length cols = 2)) as [_|_].
    { apply andb_true_iff in Hfl as [Hidle' Hfl].
      destruct waiting; [discriminate Hidle'|].
      destruct (Hidle eq_refl) as [Htext Hcorefs].
      apply (IH false st1 Hfl Hrun).
      rewrite end_document_effect in Hstep. injection Hstep as <-.
      unfold locals_in_bounds. cbn. rewrite Hcorefs.
      split; [constructor|]. split; [constructor|]. split; [done|].
      split; [discriminate|]. split; [reflexivity|].
      apply Forall_app. split; [exact Hdocs|]. constructor; [|constructor].
      by apply fix_coref_spans_in_bounds. }
    destruct (decide (7 < length cols)) as [_|_].
    { apply (IH true st1 Hfl Hrun).
      pose proof Hstep as Heff.
      apply token_record_effect in Heff as (Hd & Ht & Hu & _ & Hx & _ & Hi).
      unfold token_record in Hstep.
      apply bind_Ok in Hstep as (tok & _ & Hstep).
      apply bind_Ok in Hstep as (speaker & _ & Hstep).
      apply bind_Ok in Hstep as (acc & Hacc & [= <-]).
      unfold locals_in_bounds. cbn -[length].
      assert (Hupto : Forall (mention_upto (v_index st)) acc.1).
      { destruct (decide (last_col cols ≠ "-")) as [_|_].
        - apply (coref_tokens_upto _ _ _ _ Hacc). simpl.
          eapply Forall_impl; [exact Hcor|]. apply mention_below_upto.
        - injection Hacc as <-. simpl.
          eapply Forall_impl; [exact Hcor|]. apply mention_below_upto. }
      split.
      { eapply Forall_impl; [exact Hupto|]. apply mention_upto_below. }
      split; [exact Hutts|]. split; [discriminate|].
      split; [intros _; by destruct (v_text st)|].
      split; [rewrite length_app; simpl; lia | exact Hdocs]. }
    injection Hstep as <-. exact (IH waiting st Hfl Hrun Hst).
Qed.

(** X24.  In a file where no two-field line arrives while token records wait
    for their blank line, every mention of every document lies inside its
    document: its start is the index of a token of that document, and so
    is its end once it has one, which is then no earlier than the start.
    The bracket structure of the file plays no part. *)
Theorem load_cols_mentions_in_bounds (lines : list (list string))
    (documents : list Document) :
  flushed lines = true →
  load_cols fix_coref_spans genre_of_file lines = Ok documents →
  Forall (λ d, Forall (mention_below (length (tokens d))) (corefs d)) documents.
Proof.
  unfold load_cols, flushed. intros Hfl (st & Hrun & [= <-])%bind_Ok.
  apply (run_in_bounds lines false init_locals st Hfl Hrun).
  unfold locals_in_bounds, init_locals. cbn.
  repeat split; try constructor; try done.
Qed.

End loader_invariants.

Lemma load_cols_genre_witness :
  ∃ raws,
    [mkDocument ["John"] [mkCoref "1" 0 (Some 0) (Some [0])] ["A"] "bc"] =
      fill_spans <$> raws ∧
    Forall (λ d, genre d = "bc") raws.
Proof.
  apply (load_cols_genre fill_spans "bc"
           [record "John" "A" "(1)"; []; end_document_line]).
  vm_compute. reflexivity.
Defined.

Lemma load_cols_speakers_match_tokens_witness :
  Forall (λ d, length (tokens d) = length (speakers d))
    [mkDocument ["John"; "left"] [mkCoref "1" 0 (Some 1) (Some [0; 1])] ["A"; "A"] "bc"].
Proof.
  apply (load_cols_speakers_match_tokens fill_spans "bc" fill_spans_ok
           [record "John" "A" "(1)"; record "left" "A" "2)"; []; end_document_line]).
  vm_compute. reflexivity.
Defined.

Lemma load_cols_no_empty_token_witness :
  Forall (λ d, Forall (λ t, t ≠ "") (tokens d))
    [mkDocument [","; "left"] [] ["A"; "A"] "bc"].
Proof.
  apply (load_cols_no_empty_token fill_spans "bc" fill_spans_ok
           [record "%%" "A" "-"; record "left" "A" "-"; []; end_document_line]).
  vm_compute. reflexivity.
Defined.

Lemma load_cols_mentions_in_bounds_witness :
  Forall (λ d, Forall (mention_below (length (tokens d))) (corefs d))
    [mkDocument ["John"; "left"] [mkCoref "1" 0 (Some 1) (Some [0; 1])] ["A"; "A"] "bc"].
Proof.
  apply (load_cols_mentions_in_bounds fill_spans "bc" fill_spans_ok
           [record "John" "A" "(1)"; record "left" "A" "2)"; []; end_document_line]).
  - reflexivity.
  - vm_compute. reflexivity.
Defined.

(** ** [Corpus] and [LazyVectors] together *)

(** X25.  A token that occurs in no document of the corpus gets the unknown
    index from the table built from the corpus vocabulary, in whatever
    order the vocabulary set is iterated. *)
Theorem from_corpus_unseen_token (in_loader : string → bool)
    (documents : list Document) (corpus_vocabulary : list string) (t : string) :
  (∀ x, x ∈ corpus_vocabulary → x ∈ Corpus.vocab (Corpus.init documents)) →
  (∀ d, d ∈ documents → t ∉ tokens d) →
  ∃ self, LazyVectors.from_corpus in_loader corpus_vocabulary = Some self ∧
          LazyVectors.stoi self t = 1%Z.
Proof.
  intros Hsub Hunseen. eexists. split; [reflexivity|].
  unfold LazyVectors.set_vocab. apply stoi_absent.
  cbn [LazyVectors.take_skim].
  intros [_ Hin]%(list_elem_of_filter (λ v, in_loader v = true)).
  apply Hsub in Hin. unfold Corpus.init, Corpus.get_vocab in Hin.
  pose proof (get_vocab_fold documents ∅ ∅ t "a"%char) as [H _]. cbn zeta in H.
  destruct (foldl _ (∅, ∅) documents) as [v cv]. simpl in *.
  apply H in Hin as [Hin%elem_of_empty|(d & Hd & Ht)]; [done|].
  by apply (Hunseen d Hd).
Qed.

Lemma from_corpus_unseen_token_witness :
  ∃ self,
    LazyVectors.from_corpus (λ _, true) ["John"; "left"] = Some self ∧
    LazyVectors.stoi self "Mary" = 1%Z.
Proof.
  apply (from_corpus_unseen_token (λ _, true)
           [mkDocument ["John"; "left"] [] ["A"; "A"] "bc"] ["John"; "left"] "Mary").
  - intros x Hx. unfold Corpus.init, Corpus.get_vocab.
    pose proof (get_vocab_fold [mkDocument ["John"; "left"] [] ["A"; "A"] "bc"]
                  ∅ ∅ x "a"%char) as [H _]. cbn zeta in H.
    destruct (foldl _ (∅, ∅) [mkDocument ["John"; "left"] [] ["A"; "A"] "bc"])
      as [v cv]. simpl in *.
    apply H. right. eexists. split; [apply list_elem_of_here | exact Hx].
  - intros d Hd%list_elem_of_singleton. subst d. simpl.
    rewrite !elem_of_cons, elem_of_nil. intros [H|[H|[]]]; discriminate H.
Defined.

(** ** The grammar of the coreference column *)

Lemma strip_open_cases (token : string) :
  match token with
  | String "(" s' => ("(", s')
  | _ => ("", token)
  end =
  match token with
  | String c s' => if decide (c = "("%char) then ("(", s') else ("", token)
  | EmptyString => ("", token)
  end.
Proof.
  destruct token as [|c s]; [reflexivity|].
  destruct (decide (c = "("%char)) as [->|Hne]; [reflexivity|].
  destruct c as [[] [] [] [] [] [] [] []]; try reflexivity.
  by destruct Hne.
Qed.

Lemma strip_close_cases (s2 : string) :
  match s2 with
  | String ")" s' => (")", s')
  | _ => ("", s2)
  end =
  match s2 with
  | String c s' => if decide (c = ")"%char) then (")", s') else ("", s2)
  | EmptyString => ("", s2)
  end.
Proof.
  destruct s2 as [|c s]; [reflexivity|].
  destruct (decide (c = ")"%char)) as [->|Hne]; [reflexivity|].
  destruct c as [[] [] [] [] [] [] [] []]; try reflexivity.
  by destruct Hne.
Qed.

(** [span_digits] splits off the digits a string begins with. *)
Lemma span_digits_split (s d r : string) :
  span_digits s = (d, r) →
  s = (d ++ r)%string ∧
  Forall (λ c, Str.is_digit c = true) (list_ascii_of_string d) ∧
  match r with String c _ => Str.is_digit c = false | EmptyString => True end.
Proof.
  revert d r. induction s as [|c s IH]; intros d r; simpl.
  - intros [= <- <-]. by repeat split.
  - destruct (Str.is_digit c) eqn:Hc.
    + destruct (span_digits s) as [d' r'] eqn:Hs. intros [= <- <-].
      destruct (IH d' r' eq_refl) as (-> & Hd & Hr).
      split; [reflexivity|]. split; [by constructor | exact Hr].
    + intros [= <- <-]. by repeat split.
Qed.

Lemma span_digits_app (d r : string) :
  Forall (λ c, Str.is_digit c = true) (list_ascii_of_string d) →
  match r with String c _ => Str.is_digit c = false | EmptyString => True end →
  span_digits (d ++ r) = (d, r).
Proof.
  intros Hd Hr. induction d as [|c d IH]; simpl.
  - destruct r as [|c r]; [reflexivity|]. simpl. by rewrite Hr.
  - simpl in Hd. apply Forall_cons in Hd as [Hc Hd]. by rewrite Hc, (IH Hd).
Qed.

(** What the matcher accepts, with its groups. *)
Lemma re_match_coref_accepts (g1 lbl g3 tail : string) :
  (g1 = "" ∨ g1 = "(") → (g3 = "" ∨ g3 = ")") → lbl ≠ "" →
  Forall (λ c, Str.is_digit c = true) (list_ascii_of_string lbl) →
  (tail = "" ∨ tail = newline) →
  re_match_coref (g1 ++ lbl ++ g3 ++ tail) = Some (g1, lbl, g3).
Proof.
  intros Hg1 Hg3 Hne Hdigits Htail.
  unfold re_match_coref. rewrite strip_open_cases.
  assert (Hrest : match (g3 ++ tail)%string with
                  | String c _ => Str.is_digit c = false
                  | EmptyString => True
                  end).
  { destruct Hg3 as [-> | ->], Htail as [-> | ->]; done. }
  assert (Hopen : match (g1 ++ lbl ++ g3 ++ tail)%string with
                  | String c s' =>
                      if decide (c = "("%char) then ("(", s')
                      else ("", (g1 ++ lbl ++ g3 ++ tail)%string)
                  | EmptyString => ("", (g1 ++ lbl ++ g3 ++ tail)%string)
                  end = (g1, (lbl ++ g3 ++ tail)%string)).
  { destruct Hg1 as [-> | ->]; [|reflexivity]. simpl.
    destruct lbl as [|c l]; [contradiction|]. simpl.
    apply Forall_cons in Hdigits as [Hc _].
    destruct (decide (c = "("%char)) as [->|_]; [discriminate Hc | reflexivity]. }
  rewrite Hopen, (span_digits_app lbl _ Hdigits Hrest).
  rewrite decide_False by exact Hne. rewrite strip_close_cases.
  destruct Hg3 as [-> | ->], Htail as [-> | ->]; cbn;
    repeat match goal with
           | |- context [decide ?P] => destruct (decide P) as [?|Hn]
           end;
    try reflexivity; try discriminate; exfalso; apply Hn; tauto.
Qed.

(** X26.  On a label token of ASCII characters, where the digits of the
    regular expression of line 238 are the digits 0 to 9: the expression
    matches exactly when the token is a run of one or more digits, with
    or without ['('] in front and [')'] behind, and at most a newline
    after; the three groups are the bracket in front, the digits and the
    bracket behind. *)
Theorem re_match_coref_spec (token g1 lbl g3 : string) :
  ascii_only token →
  re_match_coref token = Some (g1, lbl, g3) ↔
  (g1 = "" ∨ g1 = "(") ∧ (g3 = "" ∨ g3 = ")") ∧ lbl ≠ "" ∧
  Forall (λ c, Str.is_digit c = true) (list_ascii_of_string lbl) ∧
  (token = (g1 ++ lbl ++ g3)%string ∨ token = (g1 ++ lbl ++ g3 ++ newline)%string).
Proof.
  intros _. split.
  - unfold re_match_coref. rewrite strip_open_cases. intros H.
    assert (Hopen : ∃ g1' s1,
              match token with
              | String c s' => if decide (c = "("%char) then ("(", s') else ("", token)
              | EmptyString => ("", token)
              end = (g1', s1) ∧ token = (g1' ++ s1)%string ∧ (g1' = "" ∨ g1' = "(")).
    { destruct token as [|c s]; [by exists "", ""; repeat split; try left|].
      destruct (decide (c = "("%char)) as [->|_].
      - exists "(", s. repeat split. by right.
      - exists "", (String c s). repeat split. by left. }
    destruct Hopen as (g1' & s1 & Heq & -> & Hg1). rewrite Heq in H. clear Heq.
    destruct (span_digits s1) as [g2 s2] eqn:Hspan.
    apply span_digits_split in Hspan as (-> & Hdigits & _).
    destruct (decide (g2 = "")) as [|Hne]; [discriminate H|].
    rewrite strip_close_cases in H.
    assert (Hclose : ∃ g3' s3,
              match s2 with
              | String c s' => if decide (c = ")"%char) then (")", s') else ("", s2)
              | EmptyString => ("", s2)
              end = (g3', s3) ∧ s2 = (g3' ++ s3)%string ∧ (g3' = "" ∨ g3' = ")")).
    { destruct s2 as [|c s]; [by exists "", ""; repeat split; try left|].
      destruct (decide (c = ")"%char)) as [->|_].
      - exists ")", s. repeat split. by right.
      - exists "", (String c s). repeat split. by left. }
    destruct Hclose as (g3' & s3 & Heq & -> & Hg3). rewrite Heq in H. clear Heq.
    destruct (decide (s3 = "" ∨ s3 = newline)) as [Hs3|]; [|discriminate H].
    injection H as <- <- <-.
    split; [exact Hg1|]. split; [exact Hg3|]. split; [exact Hne|].
    split; [exact Hdigits|].
    destruct Hs3 as [->| ->]; [left | right]; [|reflexivity].
    destruct Hg3 as [-> | ->]; reflexivity.
  - intros (Hg1 & Hg3 & Hne & Hdigits & Htoken).
    destruct Htoken as [-> | ->].
    + replace (g1 ++ lbl ++ g3)%string with (g1 ++ lbl ++ g3 ++ "")%string
        by (destruct Hg3 as [-> | ->]; reflexivity).
      apply re_match_coref_accepts; tauto.
    + apply re_match_coref_accepts; tauto.
Qed.

Lemma re_match_coref_spec_witness :
  re_match_coref "(12)" = Some ("(", "12", ")") ↔
  ("(" = "" ∨ "(" = "(") ∧ (")" = "" ∨ ")" = ")") ∧ "12" ≠ "" ∧
  Forall (λ c, Str.is_digit c = true) (list_ascii_of_string "12") ∧
  ("(12)" = ("(" ++ "12" ++ ")")%string ∨
   "(12)" = ("(" ++ "12" ++ ")" ++ newline)%string).
Proof.
  apply (re_match_coref_spec "(12)" "(" "12" ")").
  unfold ascii_only. vm_compute. repeat constructor.
Defined.

(** ** Nested mentions of one label *)

Lemma chars_app (s t : string) :
  list_ascii_of_string (s ++ t) = list_ascii_of_string s ++ list_ascii_of_string t.
Proof. induction s as [|c s IH]; simpl; [|rewrite IH]; reflexivity. Qed.

Lemma string_app_nil_r (s : string) : (s ++ "")%string = s.
Proof.
  induction s as [|c s IH]; [reflexivity|].
  change (String c s ++ "")%string with (String c (s ++ "")).
  by rewrite IH.
Qed.

Lemma split_no_sep (sep : ascii) (s : string) :
  Forall (λ c, c ≠ sep) (list_ascii_of_string s) → Str.split sep s = [s].
Proof.
  induction s as [|c s IH]; simpl; intros H; [reflexivity|].
  apply Forall_cons in H as [Hc H].
  rewrite decide_False by exact Hc. by rewrite (IH H).
Qed.

Lemma digit_label_no_bar (lbl : string) :
  digit_label lbl → Forall (λ c, c ≠ "|"%char) (list_ascii_of_string lbl).
Proof.
  intros [_ Hd]. eapply Forall_impl; [exact Hd|].
  intros c Hc ->. discriminate Hc.
Qed.

Lemma open_marker_split (lbl : string) :
  digit_label lbl → Str.split "|" ("(" ++ lbl) = [("(" ++ lbl)%string].
Proof.
  intros H. apply split_no_sep. simpl.
  constructor; [discriminate | by apply digit_label_no_bar].
Qed.

Lemma close_marker_split (lbl : string) :
  digit_label lbl → Str.split "|" (lbl ++ ")") = [(lbl ++ ")")%string].
Proof.
  intros H. apply split_no_sep. rewrite chars_app. apply Forall_app.
  split; [by apply digit_label_no_bar|]. simpl. constructor; [discriminate | constructor].
Qed.

Lemma open_marker_match (lbl : string) :
  digit_label lbl → re_match_coref ("(" ++ lbl) = Some ("(", lbl, "").
Proof.
  intros [Hne Hd].
  pose proof (re_match_coref_accepts "(" lbl "" "") as H.
  change ("(" ++ lbl ++ "" ++ "")%string with ("(" ++ (lbl ++ ""))%string in H.
  rewrite string_app_nil_r in H. apply H; tauto.
Qed.

Lemma close_marker_match (lbl : string) :
  digit_label lbl → re_match_coref (lbl ++ ")") = Some ("", lbl, ")").
Proof.
  intros [Hne Hd]. apply (re_match_coref_accepts "" lbl ")" ""); tauto.
Qed.

Lemma open_marker_not_dash (lbl : string) : ("(" ++ lbl)%string ≠ "-".
Proof. discriminate. Qed.

Lemma close_marker_not_dash (lbl : string) :
  digit_label lbl → (lbl ++ ")")%string ≠ "-".
Proof.
  intros [Hne Hd]. destruct lbl as [|c l]; [contradiction|].
  apply Forall_cons in Hd as [Hc _]. simpl. intros [= -> _]. discriminate Hc.
Qed.

Section nested_mentions.

Variable fix_coref_spans : Document → Document.
Variable genre_of_file : string.

(** A token record with ten columns or more, by what its coreference
    column does to the buffer of mentions. *)
Lemma token_record_buffer (st : locals) (cols : list string)
    (acc : list Coref * option nat) :
  10 ≤ length cols →
  (if decide (last_col cols ≠ "-")
   then coref_tokens (v_index st) (v_corefs st, v_i st)
          (Str.split "|" (last_col cols))
   else Ok (v_corefs st, v_i st)) = Ok acc →
  ∃ st', step fix_coref_spans genre_of_file st cols = Ok st' ∧
         v_corefs st' = acc.1 ∧ v_index st' = v_index st + 1.
Proof.
  intros Hlen Hacc. rewrite step_token_record by lia. unfold token_record.
  change 3%Z with (Z.of_nat 3). change 9%Z with (Z.of_nat 9).
  rewrite !py_index_nat.
  destruct (lookup_lt_is_Some_2 cols 3) as [tok ->]; [lia|].
  destruct (lookup_lt_is_Some_2 cols 9) as [speaker ->]; [lia|].
  cbn [bind]. rewrite Hacc. cbn [bind]. eexists. by repeat split.
Qed.

Lemma record_opens (st : locals) (cols : list string) (lbl : string) :
  10 ≤ length cols → digit_label lbl → last_col cols = ("(" ++ lbl)%string →
  ∃ st', step fix_coref_spans genre_of_file st cols = Ok st' ∧
         v_corefs st' = v_corefs st ++ [mkCoref lbl (v_index st) None None] ∧
         v_index st' = v_index st + 1.
Proof.
  intros Hlen Hlbl Hcol.
  apply (token_record_buffer st cols
           (v_corefs st ++ [mkCoref lbl (v_index st) None None], v_i st) Hlen).
  rewrite Hcol. rewrite decide_True by apply open_marker_not_dash.
  rewrite (open_marker_split lbl Hlbl). cbn [coref_tokens].
  unfold coref_token. rewrite (open_marker_match lbl Hlbl).
  destruct (decide ("(" = "(")) as [_|Hn]; [|by destruct Hn].
  destruct (decide ("" = ")")) as [Hn|_]; [discriminate Hn|].
  reflexivity.
Qed.

Lemma record_closes (st : locals) (cols : list string) (lbl : string)
    (l1 l2 : list Coref) (s : nat) :
  10 ≤ length cols → digit_label lbl → last_col cols = (lbl ++ ")")%string →
  v_corefs st = l1 ++ mkCoref lbl s None None :: l2 →
  Forall (λ x, pending lbl x = false) l2 →
  ∃ st', step fix_coref_spans genre_of_file st cols = Ok st' ∧
         v_corefs st' = l1 ++ mkCoref lbl s (Some (v_index st)) None :: l2 ∧
         v_index st' = v_index st + 1.
Proof.
  intros Hlen Hlbl Hcol Hbuf Hl2.
  apply (token_record_buffer st cols
           (l1 ++ mkCoref lbl s (Some (v_index st)) None :: l2, Some (length l1)) Hlen).
  rewrite Hcol. rewrite decide_True by (by apply close_marker_not_dash).
  rewrite (close_marker_split lbl Hlbl). cbn [coref_tokens].
  unfold coref_token. rewrite (close_marker_match lbl Hlbl).
  destruct (decide ("" = "(")) as [Hn|_]; [discriminate Hn|].
  destruct (decide (")" = ")")) as [_|Hn]; [|by destruct Hn].
  rewrite Hbuf.
  rewrite (close_marker_last_pending lbl l1 l2 (mkCoref lbl s None None)
             (v_index st) (v_i st) (pending_open_mention lbl s) Hl2).
  reflexivity.
Qed.

Lemma record_passive (st : locals) (cols : list string) (lbl : string) :
  passive lbl cols →
  ∃ st' added, step fix_coref_spans genre_of_file st cols = Ok st' ∧
               v_corefs st' = v_corefs st ++ added ∧
               Forall (λ m, label m ≠ lbl) added ∧
               v_index st' = v_index st + 1.
Proof.
  intros [Hlen [Hdash|(other & Hother & Hne & Hcol)]].
  - destruct (token_record_buffer st cols (v_corefs st, v_i st) Hlen)
      as (st' & Hstep & Hbuf & Hidx).
    { by rewrite Hdash, decide_False by tauto. }
    exists st', []. rewrite app_nil_r. by repeat split.
  - destruct (record_opens st cols other Hlen Hother Hcol)
      as (st' & Hstep & Hbuf & Hidx).
    exists st', [mkCoref other (v_index st) None None].
    repeat split; try done. by repeat constructor.
Qed.

Lemma run_passive (lbl : string) (gap : list (list string)) (st : locals) :
  Forall (passive lbl) gap →
  ∃ st' added, run fix_coref_spans genre_of_file st gap = Ok st' ∧
               v_corefs st' = v_corefs st ++ added ∧
               Forall (λ m, label m ≠ lbl) added ∧
               v_index st' = v_index st + length gap.
Proof.
  intros Hgap. revert st. induction Hgap as [|cols gap Hcols _ IH]; intros st.
  - exists st, []. rewrite app_nil_r. simpl. repeat split; [constructor | lia].
  - destruct (record_passive st cols lbl Hcols) as (st1 & a1 & Hstep & Hb1 & Ha1 & Hi1).
    destruct (IH st1) as (st2 & a2 & Hrun & Hb2 & Ha2 & Hi2).
    exists st2, (a1 ++ a2). cbn [run]. rewrite Hstep. cbn [bind].
    split; [exact Hrun|]. split; [by rewrite Hb2, Hb1, app_assoc|].
    split; [by apply Forall_app|]. simpl. lia.
Qed.

Lemma other_labels_not_pending (lbl : string) (l : list Coref) :
  Forall (λ m, label m ≠ lbl) l → Forall (λ m, pending lbl m = false) l.
Proof.
  intros H. eapply Forall_impl; [exact H|].
  intros m Hm. apply pending_false_other. congruence.
Qed.

(** C3, on the loop over the lines.  Two records open a mention of the
    same label [lbl], at the token indices [i1] and [i2]; two later
    records close one each, at the indices [i3] and [i4]; the records in
    between leave the label alone.  After the first close the mention
    opened last, at [i2], has the end [i3], and the one opened at [i1] is
    still open; the second close gives the end [i4] to the mention opened
    at [i1].  Whatever the buffer held before stays in front, unchanged,
    and mentions of other labels opened in between stay where they
    are. *)
Theorem nested_same_label_closes_latest_first (lbl : string) (st : locals)
    (open1 open2 close1 close2 : list string) (gap1 gap2 gap3 : list (list string)) :
  digit_label lbl →
  10 ≤ length open1 → last_col open1 = ("(" ++ lbl)%string →
  10 ≤ length open2 → last_col open2 = ("(" ++ lbl)%string →
  10 ≤ length close1 → last_col close1 = (lbl ++ ")")%string →
  10 ≤ length close2 → last_col close2 = (lbl ++ ")")%string →
  Forall (passive lbl) gap1 → Forall (passive lbl) gap2 → Forall (passive lbl) gap3 →
  let i1 := v_index st in
  let i2 := i1 + 1 + length gap1 in
  let i3 := i2 + 1 + length gap2 in
  let i4 := i3 + 1 + length gap3 in
  ∃ st1 st2 a1 a2 a3,
    run fix_coref_spans genre_of_file st
      (open1 :: gap1 ++ open2 :: gap2 ++ [close1]) = Ok st1 ∧
    v_corefs st1 =
      v_corefs st ++ mkCoref lbl i1 None None :: a1 ++
        mkCoref lbl i2 (Some i3) None :: a2 ∧
    run fix_coref_spans genre_of_file st1 (gap3 ++ [close2]) = Ok st2 ∧
    v_corefs st2 =
      v_corefs st ++ mkCoref lbl i1 (Some i4) None :: a1 ++
        mkCoref lbl i2 (Some i3) None :: a2 ++ a3 ∧
    Forall (λ m, label m ≠ lbl) (a1 ++ a2 ++ a3).
Proof.
  intros Hlbl Ho1 Hco1 Ho2 Hco2 Hc1 Hcc1 Hc2 Hcc2 Hg1 Hg2 Hg3. cbv zeta.
  destruct (record_opens st open1 lbl Ho1 Hlbl Hco1) as (sA & HA & HbA & HiA).
  destruct (run_passive lbl gap1 sA Hg1) as (sB & a1 & HB & HbB & Ha1 & HiB).
  destruct (record_opens sB open2 lbl Ho2 Hlbl Hco2) as (sC & HC & HbC & HiC).
  destruct (run_passive lbl gap2 sC Hg2) as (sD & a2 & HD & HbD & Ha2 & HiD).
  assert (HbufD : v_corefs sD =
            (v_corefs st ++ mkCoref lbl (v_index st) None None :: a1) ++
              mkCoref lbl (v_index sB) None None :: a2).
  { rewrite HbD, HbC, HbB, HbA. by rewrite <- !app_assoc. }
  destruct (record_closes sD close1 lbl _ a2 (v_index sB) Hc1 Hlbl Hcc1 HbufD)
    as (st1 & H1 & Hb1 & Hi1); [by apply other_labels_not_pending|].
  destruct (run_passive lbl gap3 st1 Hg3) as (sE & a3 & HE & HbE & Ha3 & HiE).
  assert (HbufE : v_corefs sE =
            v_corefs st ++ mkCoref lbl (v_index st) None None ::
              (a1 ++ mkCoref lbl (v_index sB) (Some (v_index sD)) None :: a2 ++ a3)).
  { rewrite HbE, Hb1. rewrite <- !app_assoc. reflexivity. }
  destruct (record_closes sE close2 lbl _ _ (v_index st) Hc2 Hlbl Hcc2 HbufE)
    as (st2 & H2 & Hb2 & Hi2).
  { apply Forall_app. split; [by apply other_labels_not_pending|].
    constructor; [by eapply pending_false_resolved|].
    apply Forall_app. split; by apply other_labels_not_pending. }
  assert (Hi2' : v_index sB = v_index st + 1 + length gap1) by lia.
  assert (Hi3' : v_index sD = v_index st + 1 + length gap1 + 1 + length gap2) by lia.
  assert (Hi4' : v_index sE =
            v_index st + 1 + length gap1 + 1 + length gap2 + 1 + length gap3) by lia.
  exists st1, st2, a1, a2, a3. split; [|split; [|split; [|split]]].
  - cbn [run]. rewrite HA. cbn [bind]. rewrite run_app, HB. cbn [bind run].
    rewrite HC. cbn [bind]. rewrite run_app, HD. cbn [bind run].
    by rewrite H1.
  - rewrite Hb1, Hi2', Hi3'. by rewrite <- !app_assoc.
  - rewrite run_app, HE. cbn [bind run]. by rewrite H2.
  - by rewrite Hb2, Hi2', Hi3', Hi4'.
  - apply Forall_app. split; [exact Ha1|]. by apply Forall_app.
Qed.

End nested_mentions.

Lemma nested_same_label_closes_latest_first_witness :
  ∃ st1 st2 a1 a2 a3,
    run fill_spans "bc" (mkLocals [] [] ["a"; "b"] [] [] [] 2 (Some "A") None)
      (record "c" "A" "(7" :: [record "d" "A" "-"; record "e" "A" "(3"] ++
         record "f" "A" "(7" :: [] ++ [record "g" "A" "7)"]) = Ok st1 ∧
    v_corefs st1 =
      [] ++ mkCoref "7" 2 None None :: a1 ++ mkCoref "7" 5 (Some 6) None :: a2 ∧
    run fill_spans "bc" st1 ([record "h" "A" "-"] ++ [record "i" "B" "7)"]) = Ok st2 ∧
    v_corefs st2 =
      [] ++ mkCoref "7" 2 (Some 8) None :: a1 ++
        mkCoref "7" 5 (Some 6) None :: a2 ++ a3 ∧
    Forall (λ m, label m ≠ "7") (a1 ++ a2 ++ a3).
Proof.
  assert (Hlbl : ∀ d, d = "7" ∨ d = "3" → digit_label d).
  { intros d [-> | ->]; (split; [discriminate | repeat constructor]). }
  assert (Hdash : ∀ w s, passive "7" (record w s "-")).
  { intros w s. split; [simpl; lia | by left]. }
  apply (nested_same_label_closes_latest_first fill_spans "bc" "7"
           (mkLocals [] [] ["a"; "b"] [] [] [] 2 (Some "A") None)
           (record "c" "A" "(7") (record "f" "A" "(7")
           (record "g" "A" "7)") (record "i" "B" "7)")
           [record "d" "A" "-"; record "e" "A" "(3"] [] [record "h" "A" "-"]).
  - apply Hlbl. by left.
  - simpl. lia.
  - reflexivity.
  - simpl. lia.
  - reflexivity.
  - simpl. lia.
  - reflexivity.
  - simpl. lia.
  - reflexivity.
  - constructor; [apply Hdash|]. constructor; [|constructor].
    split; [simpl; lia|]. right. exists "3".
    split; [apply Hlbl; by right|]. split; [discriminate | reflexivity].
  - constructor.
  - constructor; [apply Hdash | constructor].
Defined.
